(** * Tokenami TypeScript language-service plugin

    A shallow embedding of [packages/ts-plugin/src/index.ts]: the plugin that
    wraps the TypeScript language service and augments four of its
    operations ([getSemanticDiagnostics], [getCodeFixesAtPosition],
    [getCompletionsAtPosition], [getCompletionEntryDetails]) with knowledge
    of the token grammar.

    Conventions of the embedding:
    - JavaScript strings are [string]s.  Every character the plugin inspects
      (the dollar separator, quotes, word characters) is ASCII, so splitting
      and matching on bytes agrees with splitting on UTF-16 code units.
    - JavaScript objects used as maps ([config.theme], [config.responsive])
      and the [Map] holding the session cache are [gmap]s keyed by strings;
      only own properties are modelled.
    - [undefined]/[null] are [None].
    - The session cache [tokenConfigMap] is the only mutable state shared by
      the closures of [create]; it is threaded explicitly.
    - The answers of the host are values: the arrays it returns are fresh
      at each call, so the plugin's updates in place ([push], assignment
      at an index, assignment to the fields of a completion entry) are
      updates of the value in hand. *)

From Stdlib Require Import ZArith Ascii String List Bool Lia DecimalString.
From stdpp Require Import base option list gmap strings.

Local Open Scope Z_scope.
Set Warnings "-register-all".

(** ** JavaScript string primitives used by the plugin *)

Module Js.

(** The double-quote character. *)
Definition dquote : ascii := ascii_of_nat 34.
Definition squote : ascii := ascii_of_nat 39.
Definition dollar : ascii := ascii_of_nat 36.

(** Truthiness of a string value: every string but the empty one. *)
Definition truthy_string (s : string) : bool :=
  match s with
  | EmptyString => false
  | String _ _ => true
  end.

(** [s.split(sep)] for a one-character separator. *)
Fixpoint split (sep : ascii) (s : string) : list string :=
  match s with
  | EmptyString => [EmptyString]
  | String c s' =>
      if Ascii.eqb c sep then EmptyString :: split sep s'
      else match split sep s' with
           | seg :: rest => String c seg :: rest
           | [] => [String c EmptyString]
           end
  end.

(** [arr.findIndex(p)]: index of the first element satisfying [p],
    [-1] when there is none. *)
Fixpoint findIndex {A} (p : A -> bool) (l : list A) : Z :=
  match l with
  | [] => -1
  | x :: l' =>
      if p x then 0
      else let i := findIndex p l' in
           if i <? 0 then -1 else i + 1
  end.

(** [arr.includes(x)] on numbers. *)
Definition includes (l : list Z) (x : Z) : bool :=
  existsb (Z.eqb x) l.

(** [s.substring(a, b)] for [0 <= a <= b]. *)
Definition substring (a b : Z) (s : string) : string :=
  String.substring (Z.to_nat a) (Z.to_nat (b - a)) s.

(** *** Character classes of the code-fix pattern *)

Definition in_range (lo hi : nat) (c : ascii) : bool :=
  let n := nat_of_ascii c in (lo <=? n)%nat && (n <=? hi)%nat.

(** [\d] *)
Definition is_digit (c : ascii) : bool := in_range 48 57 c.

(** [\w]: letters, digits and underscore. *)
Definition is_word (c : ascii) : bool :=
  in_range 97 122 c || in_range 65 90 c || is_digit c
  || Ascii.eqb c (ascii_of_nat 95).

(** The bracket expression [[\w\d_-]]. *)
Definition is_word_shape_char (c : ascii) : bool :=
  is_word c || is_digit c || Ascii.eqb c (ascii_of_nat 95)
  || Ascii.eqb c (ascii_of_nat 45).

(** The capture group of the pattern: a single or a double quote. *)
Definition is_quote (c : ascii) : bool :=
  Ascii.eqb c squote || Ascii.eqb c dquote.

(** Longest prefix of [s] made of bracket characters, and what follows. *)
Fixpoint span_word_shape (s : string) : string * string :=
  match s with
  | EmptyString => (EmptyString, EmptyString)
  | String c s' =>
      if is_word_shape_char c
      then let '(w, r) := span_word_shape s' in (String c w, r)
      else (EmptyString, s)
  end.

(** An optional quote at the head of [s]: the capture and the rest. *)
Definition optional_quote (s : string) : option string * string :=
  match s with
  | String c s' =>
      if is_quote c then (Some (String c EmptyString), s') else (None, s)
  | EmptyString => (None, s)
  end.

(** The captures of a successful match of the code-fix pattern
    [^(q)?[\w\d_-]+(q)?$], where [q] is a single or a double quote,
    against [s]; [None] when the pattern does not match.  The pattern
    is anchored at both ends and a quote is never a bracket character,
    so each greedy choice is forced and the match, when there is one,
    is the whole of [s]. *)
Definition exec_word_shape (s : string) : option (list (option string)) :=
  let '(g1, s1) := optional_quote s in
  let '(w, s2) := span_word_shape s1 in
  match w with
  | EmptyString => None
  | String _ _ =>
      let '(g2, s3) := optional_quote s2 in
      match s3 with
      | EmptyString => Some [g1; g2]
      | String _ _ => None
      end
  end.

(** *** Replacement templates ([GetSubstitution], no named groups) *)

Definition digit_value (c : ascii) : option nat :=
  if is_digit c then Some (nat_of_ascii c - 48)%nat else None.

Section GetSubstitution.
Variables (matched before after : string).
Variable captures : list (option string).

(** The text standing for the reference [ref] to capture [index]. *)
Definition capture_ref (index : nat) (ref : string) : string :=
  if (1 <=? index)%nat && (index <=? length captures)%nat then
    match captures !! (index - 1)%nat with
    | Some (Some capture) => capture
    | _ => EmptyString
    end
  else ref.

Fixpoint GetSubstitution (template : string) : string :=
  match template with
  | EmptyString => EmptyString
  | String c rest =>
      if negb (Ascii.eqb c dollar) then String c (GetSubstitution rest)
      else
        match rest with
        | EmptyString => String dollar EmptyString
        | String c1 rest1 =>
            if Ascii.eqb c1 dollar then
              String dollar (GetSubstitution rest1)
            else if Ascii.eqb c1 (ascii_of_nat 38) then
              matched +:+ GetSubstitution rest1
            else if Ascii.eqb c1 (ascii_of_nat 96) then
              before +:+ GetSubstitution rest1
            else if Ascii.eqb c1 squote then
              after +:+ GetSubstitution rest1
            else
              match digit_value c1 with
              | None => String dollar (GetSubstitution rest)
              | Some d1 =>
                  let one :=
                    capture_ref d1 (String dollar (String c1 EmptyString))
                    +:+ GetSubstitution rest1 in
                  match rest1 with
                  | EmptyString => one
                  | String c2 rest2 =>
                      match digit_value c2 with
                      | None => one
                      | Some d2 =>
                          let index := (10 * d1 + d2)%nat in
                          if (length captures <? index)%nat then one
                          else
                            capture_ref index
                              (String dollar
                                 (String c1 (String c2 EmptyString)))
                            +:+ GetSubstitution rest2
                      end
                  end
              end
        end
  end.
End GetSubstitution.

(** [text.replace(pattern, template)] for the code-fix pattern: the first (here
    the only possible) match is replaced by the expanded template; a
    text the pattern does not match is returned as it is. *)
Definition replace_word_shape (text template : string) : string :=
  match exec_word_shape text with
  | Some captures =>
      GetSubstitution text EmptyString EmptyString captures template
  | None => text
  end.

End Js.

(** ** Values of the host language and of the editor protocol

    Numbers of the host language ([tokenValue] is a [string | number]) and
    the option bags the plugin hands to the language service untouched. *)

Class HostTypes : Type := {
  JsNumber : Type;
  (** Truthiness of a number: false at zero and at NaN. *)
  number_truthy : JsNumber -> bool;
  (** [String(n)]. *)
  number_toString : JsNumber -> string;
  FormatCodeSettings : Type;
  UserPreferences : Type;
  GetCompletionsAtPositionOptions : Type;
  CompletionEntryData : Type
}.

(** ** Syntax trees of the host

    The three kinds of node the plugin tells apart.  [start] is what
    [node.getStart()] answers and [end_] what [node.getEnd()] answers. *)

Inductive Node : Type :=
| StringLiteral (start end_ : Z) (text : string)
| PropertyAssignment (start end_ : Z) (name initializer : Node)
| OtherNode (start end_ : Z) (children : list Node).

Definition getStart (n : Node) : Z :=
  match n with
  | StringLiteral s _ _ | PropertyAssignment s _ _ _ | OtherNode s _ _ => s
  end.

Definition getEnd (n : Node) : Z :=
  match n with
  | StringLiteral _ e _ | PropertyAssignment _ e _ _ | OtherNode _ e _ => e
  end.

Definition getWidth (n : Node) : Z := getEnd n - getStart n.

(** The nodes [ts.forEachChild(n, cb)] hands to [cb], in order. *)
Definition childrenOf (n : Node) : list Node :=
  match n with
  | StringLiteral _ _ _ => []
  | PropertyAssignment _ _ name initializer => [name; initializer]
  | OtherNode _ _ children => children
  end.

(** [ts.forEachChild(node, cb)] for a callback that may answer: the first
    answer of [cb] over the children of the node, in order. *)
Definition forEachChild {B} (cb : Node -> option B)
  : list Node -> option B :=
  fix next (children : list Node) : option B :=
    match children with
    | [] => None
    | child :: rest =>
        match cb child with
        | Some answer => Some answer
        | None => next rest
        end
    end.

(** [position >= node.getStart(sourceFile) && position < node.getEnd()] *)
Definition covers (position : Z) (node : Node) : bool :=
  (getStart node <=? position) && (position <? getEnd node).

(** [ts.isStringLiteral(n) ? n.text : null] *)
Definition stringLiteralText (n : Node) : option string :=
  match n with
  | StringLiteral _ _ text => Some text
  | _ => None
  end.

Record SourceFile : Type := {
  sf_fileName : string;
  sf_text : string;
  (** The source file seen as a node: the root of the tree. *)
  sf_node : Node
}.

(** [node.getText()]: the slice of the file's text the node spans. *)
Definition getText (sourceFile : SourceFile) (n : Node) : string :=
  Js.substring (getStart n) (getEnd n) (sf_text sourceFile).

(** ** Diagnostics *)

Inductive DiagnosticCategory : Type :=
| Warning | Error | Suggestion | Message.

Inductive DiagnosticMessageChain : Type :=
| MessageChain (messageText : string) (category : DiagnosticCategory)
               (code : Z) (next : list DiagnosticMessageChain).

Inductive MessageText : Type :=
| MessageString (s : string)
| MessageChained (chain : DiagnosticMessageChain).

Record Diagnostic : Type := {
  d_file : option SourceFile;
  d_start : option Z;
  d_length : option Z;
  d_messageText : MessageText;
  d_category : DiagnosticCategory;
  d_code : Z
}.

(** [{ ...d, messageText }] *)
Definition with_messageText (d : Diagnostic) (messageText : string)
  : Diagnostic :=
  {| d_file := d_file d; d_start := d_start d; d_length := d_length d;
     d_messageText := MessageString messageText;
     d_category := d_category d; d_code := d_code d |}.

(** ** Code fixes *)

Record TextSpan : Type := { span_start : Z; span_length : Z }.

Record TextChange : Type := { tc_span : TextSpan; tc_newText : string }.

Record FileTextChanges : Type := {
  ftc_fileName : string;
  ftc_textChanges : list TextChange
}.

Record CodeFixAction : Type := {
  fix_description : string;
  fix_fixName : string;
  fix_changes : list FileTextChanges;
  fix_fixId : option string
}.

(** ** Completions *)

Record CompletionEntryLabelDetails : Type := {
  ld_detail : option string;
  ld_description : option string
}.

Record CompletionEntry : Type := {
  ce_name : string;
  ce_kind : string;
  ce_kindModifiers : option string;
  ce_sortText : string;
  ce_insertText : option string;
  ce_labelDetails : option CompletionEntryLabelDetails
}.

Definition set_sortText (sortText : string) (e : CompletionEntry)
  : CompletionEntry :=
  {| ce_name := ce_name e; ce_kind := ce_kind e;
     ce_kindModifiers := ce_kindModifiers e; ce_sortText := sortText;
     ce_insertText := ce_insertText e; ce_labelDetails := ce_labelDetails e |}.

Definition set_labelDetails (labelDetails : CompletionEntryLabelDetails)
    (e : CompletionEntry) : CompletionEntry :=
  {| ce_name := ce_name e; ce_kind := ce_kind e;
     ce_kindModifiers := ce_kindModifiers e; ce_sortText := ce_sortText e;
     ce_insertText := ce_insertText e; ce_labelDetails := Some labelDetails |}.

Definition set_name (name : string) (e : CompletionEntry) : CompletionEntry :=
  {| ce_name := name; ce_kind := ce_kind e;
     ce_kindModifiers := ce_kindModifiers e; ce_sortText := ce_sortText e;
     ce_insertText := ce_insertText e; ce_labelDetails := ce_labelDetails e |}.

Definition set_kindModifiers (kindModifiers : string) (e : CompletionEntry)
  : CompletionEntry :=
  {| ce_name := ce_name e; ce_kind := ce_kind e;
     ce_kindModifiers := Some kindModifiers; ce_sortText := ce_sortText e;
     ce_insertText := ce_insertText e; ce_labelDetails := ce_labelDetails e |}.

Definition set_insertText (insertText : string) (e : CompletionEntry)
  : CompletionEntry :=
  {| ce_name := ce_name e; ce_kind := ce_kind e;
     ce_kindModifiers := ce_kindModifiers e; ce_sortText := ce_sortText e;
     ce_insertText := Some insertText; ce_labelDetails := ce_labelDetails e |}.

Record CompletionInfo : Type := {
  ci_isGlobalCompletion : bool;
  ci_isMemberCompletion : bool;
  ci_isNewIdentifierLocation : bool;
  ci_entries : list CompletionEntry
}.

Definition set_entries (entries : list CompletionEntry) (i : CompletionInfo)
  : CompletionInfo :=
  {| ci_isGlobalCompletion := ci_isGlobalCompletion i;
     ci_isMemberCompletion := ci_isMemberCompletion i;
     ci_isNewIdentifierLocation := ci_isNewIdentifierLocation i;
     ci_entries := entries |}.

Record SymbolDisplayPart : Type := { sdp_text : string; sdp_kind : string }.

Record CompletionEntryDetails : Type := {
  ced_name : string;
  ced_kind : string;
  ced_kindModifiers : string;
  ced_displayParts : list SymbolDisplayPart;
  ced_documentation : option (list SymbolDisplayPart)
}.

(** [ts.ScriptElementKind.string] *)
Definition ScriptElementKind_string : string := "string".

(** ** The configuration package [@tokenami/config]

    The plugin consumes the package through the members below.  Its
    sources are not part of this development: the grammar predicates and
    decoders are taken as an interface, and every result about the plugin
    holds for any implementation of it. *)

Section Plugin.
Context {host_types : HostTypes}.

(** A theme value: [string | number]. *)
Inductive ThemeValue : Type :=
| ThemeString (s : string)
| ThemeNumber (n : JsNumber).

(** Truthiness of a theme value, as tested by [parts && tokenValue]. *)
Definition truthy_value (v : ThemeValue) : bool :=
  match v with
  | ThemeString s => Js.truthy_string s
  | ThemeNumber n => number_truthy n
  end.

(** [String(v)] *)
Definition String_ (v : ThemeValue) : string :=
  match v with
  | ThemeString s => s
  | ThemeNumber n => number_toString n
  end.

(** Modelled from the spec: the type [Config] of [@tokenami/config],
    of which the plugin reads [theme] (theme key to token name to
    value) and the optional [responsive] (variant name to
    description). *)
Record Config : Type := {
  theme : gmap string (gmap string ThemeValue);
  responsive : option (gmap string string)
}.

(** Modelled from the spec: the parts a token property decodes to,
    declared in [@tokenami/config]; the plugin reads [responsive]. *)
Record TokenPropertyParts : Type := {
  tpp_selector : option string;
  tpp_responsive : option string;
  tpp_cssProperty : string
}.

(** Modelled from the spec: the parts a token value decodes to,
    declared in [@tokenami/config]. *)
Record TokenValueParts : Type := {
  themeKey : string;
  token : string
}.

Record TokenamiModule : Type := {
  getConfigPath : string -> option string -> string;
  getConfigAtPath : string -> Config;
  (** [TokenProperty.safeParse(x).success]; [x] may be [null]. *)
  TokenProperty_safeParse : option string -> bool;
  (** [TokenValue.safeParse(x).success] *)
  TokenValue_safeParse : string -> bool;
  getTokenPropertyParts : option string -> Config -> option TokenPropertyParts;
  getTokenValueParts : string -> option TokenValueParts;
  arbitraryValue : string -> string
}.

(** ** The language service of the host *)

Record Program : Type := {
  getSourceFile : string -> option SourceFile
}.

Record LanguageService : Type := {
  getProgram : option Program;
  getSemanticDiagnostics : string -> list Diagnostic;
  getCodeFixesAtPosition :
    string -> Z -> Z -> list Z -> FormatCodeSettings -> UserPreferences ->
    list CodeFixAction;
  getCompletionsAtPosition :
    string -> Z -> option GetCompletionsAtPositionOptions ->
    option CompletionInfo;
  getCompletionEntryDetails :
    string -> Z -> string -> option FormatCodeSettings -> option string ->
    option UserPreferences -> option CompletionEntryData ->
    option CompletionEntryDetails
}.

(** [program?.getSourceFile(fileName)] *)
Definition sourceFileOf (ls : LanguageService) (fileName : string)
  : option SourceFile :=
  match getProgram ls with
  | Some program => getSourceFile program fileName
  | None => None
  end.

Record PluginCreateInfo : Type := {
  languageService : LanguageService;
  (** [info.project.getCurrentDirectory()] *)
  project_currentDirectory : string;
  (** [info.config.configPath] *)
  config_configPath : option string
}.

(** ** Session state *)

Record TokenConfigEntry : Type := {
  tce_themeKey : string;
  tce_tokenValue : ThemeValue
}.

(** The type of [tokenConfigMap]. *)
Abbreviation TokenConfigMap := (gmap string TokenConfigEntry).

(** Computations of the closures that share [tokenConfigMap]. *)
Definition Session (A : Type) : Type := TokenConfigMap -> A * TokenConfigMap.

Definition ret {A} (a : A) : Session A := fun m => (a, m).

Definition bind {A B} (c : Session A) (k : A -> Session B) : Session B :=
  fun m => let '(a, m') := c m in k a m'.

(** [tokenConfigMap.set(k, v)] *)
Definition map_set (k : string) (v : TokenConfigEntry) : Session unit :=
  fun m => (tt, <[k := v]> m).

(** [tokenConfigMap.get(k)] *)
Definition map_get (k : string) : Session (option TokenConfigEntry) :=
  fun m => (m !! k, m).

Notation "'let*' x ':=' c 'in' k" := (bind c (fun x => k))
  (at level 10, x name, c at level 100, k at level 200).

(** [entries.map(f)] for an [f] that runs in the session. *)
Fixpoint mapS {A B} (f : A -> Session B) (l : list A) : Session (list B) :=
  match l with
  | [] => ret []
  | x :: l' =>
      let* y := f x in
      let* ys := mapS f l' in
      ret (y :: ys)
  end.

(** The language service handed back to the host: the same operations,
    run against the session state. *)
Record ProxyService : Type := {
  proxy_getSemanticDiagnostics : string -> Session (list Diagnostic);
  proxy_getCodeFixesAtPosition :
    string -> Z -> Z -> list Z -> FormatCodeSettings -> UserPreferences ->
    Session (list CodeFixAction);
  proxy_getCompletionsAtPosition :
    string -> Z -> option GetCompletionsAtPositionOptions ->
    Session (option CompletionInfo);
  proxy_getCompletionEntryDetails :
    string -> Z -> string -> option FormatCodeSettings -> option string ->
    option UserPreferences -> option CompletionEntryData ->
    Session (option CompletionEntryDetails)
}.

Definition INVALID_SELECTOR_ERROR_CODE : Z := 50000.
Definition INVALID_VALUE_ERROR_CODE : Z := 2322.

(** ** The plugin: [init(modules).create(info)] *)

Variable Tokenami : TokenamiModule.
(** [ts.sys.fileExists] *)
Variable fileExists : string -> bool.

(** [String(property)] inside a template, for a [string | null]. *)
Definition show_property (property : option string) : string :=
  match property with
  | Some p => p
  | None => "null"
  end.

Definition createTextSpanFromNode (node : Node) : TextSpan :=
  {| span_start := getStart node;
     span_length := getEnd node - getStart node |}.

(** [find] of [findNodeAtPosition], returning the node found together
    with its [parent]: the node whose children were being searched,
    nothing for the source file itself. *)
Fixpoint find (position : Z) (parent : option Node) (node : Node)
    {struct node} : option (Node * option Node) :=
  if covers position node then
    let below :=
      match node with
      | StringLiteral _ _ _ => None
      | PropertyAssignment _ _ name initializer =>
          forEachChild (find position (Some node)) [name; initializer]
      | OtherNode _ _ children =>
          forEachChild (find position (Some node)) children
      end in
    match below with
    | Some found => Some found
    | None => Some (node, parent)
    end
  else None.

Definition findNodeAtPosition (sourceFile : SourceFile) (position : Z)
  : option (Node * option Node) :=
  find position None (sf_node sourceFile).

Section Augmented.
Variable info : PluginCreateInfo.
Variable config : Config.

(** *** Diagnostics *)

Definition selectorDiagnostic (sourceFile : SourceFile) (node : Node)
    (property : option string) : Diagnostic :=
  {| d_file := Some sourceFile;
     d_start := Some (getStart node);
     d_length := Some (getWidth node);
     d_messageText :=
       MessageString
         ("Invalid property '" +:+ show_property property
          +:+ "'. Selector not found in theme.");
     d_category := Error;
     d_code := INVALID_SELECTOR_ERROR_CODE |}.

(** The predicate handed to [original.findIndex]. *)
Definition isInvalidValueAt (node : Node) (diagnostic : Diagnostic)
  : bool :=
  let isCodeMatch := d_code diagnostic =? INVALID_VALUE_ERROR_CODE in
  let isCurrentNode :=
    match d_start diagnostic with
    | Some s => s =? getStart node
    | None => false
    end in
  isCodeMatch && isCurrentNode.

Definition invalidValueMessage (property textValue : option string)
  : string :=
  let messageText :=
    "Grid values are not assignable to '" +:+ show_property property +:+ "'."
  in
  match textValue with
  | Some value =>
      if Js.truthy_string value then
        "Value '" +:+ value +:+ "' is not assignable to '"
        +:+ show_property property
        +:+ "'. Use theme value or mark arbitrary with '"
        +:+ arbitraryValue Tokenami value +:+ "'"
      else messageText
  | None => messageText
  end.

(** The body of [visit] for a property assignment [node].  The index
    [findIndex] answers, when it is not [-1], is an index of the list,
    so the last [None] branch is never taken. *)
Definition visitPropertyAssignment (sourceFile : SourceFile)
    (node name initializer : Node) (original : list Diagnostic)
  : list Diagnostic :=
  let property := stringLiteralText name in
  let textValue := stringLiteralText initializer in
  if TokenProperty_safeParse Tokenami property then
    let parts := getTokenPropertyParts Tokenami property config in
    let original :=
      match parts with
      | None => original ++ [selectorDiagnostic sourceFile node property]
      | Some _ => original
      end in
    let invalidValueIndex :=
      Js.findIndex (isInvalidValueAt node) original in
    if invalidValueIndex >? -1 then
      let messageText := invalidValueMessage property textValue in
      match original !! Z.to_nat invalidValueIndex with
      | Some diagnostic =>
          <[Z.to_nat invalidValueIndex :=
              with_messageText diagnostic messageText]> original
      | None => original
      end
    else original
  else original.

(** What [visit] does at [node] before it descends. *)
Definition visitNode (sourceFile : SourceFile) (node : Node)
    (original : list Diagnostic) : list Diagnostic :=
  match node with
  | PropertyAssignment _ _ name initializer =>
      visitPropertyAssignment sourceFile node name initializer original
  | _ => original
  end.

Fixpoint visit (sourceFile : SourceFile) (node : Node)
    (original : list Diagnostic) {struct node} : list Diagnostic :=
  let original := visitNode sourceFile node original in
  match node with
  | StringLiteral _ _ _ => original
  | PropertyAssignment _ _ name initializer =>
      fold_left (fun acc child => visit sourceFile child acc)
                [name; initializer] original
  | OtherNode _ _ children =>
      fold_left (fun acc child => visit sourceFile child acc)
                children original
  end.

Definition augmented_getSemanticDiagnostics (fileName : string)
  : list Diagnostic :=
  let original :=
    getSemanticDiagnostics (languageService info) fileName in
  match sourceFileOf (languageService info) fileName with
  | Some sourceFile =>
      fold_left (fun acc child => visit sourceFile child acc)
                (childrenOf (sf_node sourceFile)) original
  | None => original
  end.

(** *** Code fixes *)

(** The text that replaces a string-literal initializer whose source
    text is [originalText] and whose value is [value]. *)
Definition arbitraryTextOf (originalText value : string) : string :=
  Js.replace_word_shape originalText
    ("$1" +:+ arbitraryValue Tokenami value +:+ "$2").

Definition replaceWithArbitrary (fileName : string) (valueSpan : TextSpan)
    (arbitraryText : string) : CodeFixAction :=
  {| fix_description := "Use " +:+ arbitraryText +:+ " to mark as arbitrary";
     fix_fixName := "replaceWithArbitrary";
     fix_changes :=
       [ {| ftc_fileName := fileName;
            ftc_textChanges :=
              [ {| tc_span := valueSpan; tc_newText := arbitraryText |} ]
         |} ];
     fix_fixId := None |}.

(** The value returned from inside the conditionals, when control
    reaches the inner [return]. *)
Definition arbitraryFix (fileName : string) (start : Z)
    (errorCodes : list Z) : option (list CodeFixAction) :=
  if Js.includes errorCodes INVALID_VALUE_ERROR_CODE then
    match sourceFileOf (languageService info) fileName with
    | Some sourceFile =>
        match findNodeAtPosition sourceFile start with
        | Some (_, Some (PropertyAssignment _ _ _ initializer)) =>
            let valueSpan := createTextSpanFromNode initializer in
            match stringLiteralText initializer with
            | Some value =>
                if Js.truthy_string value then
                  let originalText := getText sourceFile initializer in
                  let arbitraryText :=
                    arbitraryTextOf originalText value in
                  Some [replaceWithArbitrary fileName valueSpan
                          arbitraryText]
                else None
            | None => None
            end
        | _ => None
        end
    | None => None
    end
  else None.

Definition augmented_getCodeFixesAtPosition (fileName : string)
    (start end_ : Z) (errorCodes : list Z)
    (formatOptions : FormatCodeSettings) (preferences : UserPreferences)
  : list CodeFixAction :=
  let original :=
    getCodeFixesAtPosition (languageService info) fileName start end_
      errorCodes formatOptions preferences in
  match arbitraryFix fileName start errorCodes with
  | Some fixes => fixes
  | None => original
  end.

(** *** Completions *)

(** [parts?.responsive && config.responsive?.[parts.responsive]] *)
Definition responsiveDescription (parts : option TokenPropertyParts)
  : option string :=
  match parts with
  | Some p =>
      match tpp_responsive p with
      | Some r =>
          if Js.truthy_string r then
            match responsive config with
            | Some descriptions => descriptions !! r
            | None => None
            end
          else Some r
      | None => None
      end
  | None => None
  end.

(** The first conditional of the callback of [entries.map]. *)
Definition markTokenProperty (entryName : string) (entry : CompletionEntry)
  : CompletionEntry :=
  if TokenProperty_safeParse Tokenami (Some entryName) then
    let parts := getTokenPropertyParts Tokenami (Some entryName) config in
    let description := responsiveDescription parts in
    let entry := set_sortText ("$" +:+ entryName) entry in
    match description with
    | Some d =>
        if Js.truthy_string d then
          set_labelDetails
            {| ld_detail := Some EmptyString; ld_description := Some d |}
            entry
        else entry
    | None => entry
    end
  else entry.

(** [parts ? config.theme[parts.themeKey]?.[parts.token] : undefined] *)
Definition themeValueOf (parts : option TokenValueParts)
  : option ThemeValue :=
  match parts with
  | Some p =>
      match theme config !! themeKey p with
      | Some tokens => tokens !! token p
      | None => None
      end
  | None => None
  end.

(** The second conditional of the callback of [entries.map]. *)
Definition markTokenValue (entryName : string) (entry : CompletionEntry)
  : Session CompletionEntry :=
  if TokenValue_safeParse Tokenami entryName then
    let parts := getTokenValueParts Tokenami entryName in
    let tokenValue := themeValueOf parts in
    match parts, tokenValue with
    | Some p, Some v =>
        if truthy_value v then
          let* _ :=
            map_set (token p)
              {| tce_themeKey := themeKey p; tce_tokenValue := v |} in
          ret (set_labelDetails
                 {| ld_detail := Some EmptyString;
                    ld_description := Some entryName |}
                 (set_insertText entryName
                    (set_kindModifiers (themeKey p)
                       (set_name ("$" +:+ token p) entry))))
        else ret entry
    | _, _ => ret entry
    end
  else ret entry.

(** The callback of [original.entries.map]. *)
Definition augmentEntry (entry : CompletionEntry)
  : Session CompletionEntry :=
  let entryName := ce_name entry in
  let entry := set_sortText entryName entry in
  let entry := markTokenProperty entryName entry in
  markTokenValue entryName entry.

Definition augmented_getCompletionsAtPosition (fileName : string)
    (position : Z) (options : option GetCompletionsAtPositionOptions)
  : Session (option CompletionInfo) :=
  let original :=
    getCompletionsAtPosition (languageService info) fileName position
      options in
  match original with
  | None => ret None
  | Some original =>
      let* entries := mapS augmentEntry (ci_entries original) in
      ret (Some (set_entries entries original))
  end.

(** *** Completion details *)

(** [const [, token] = entryName.split('$')] *)
Definition shortToken (entryName : string) : option string :=
  Js.split Js.dollar entryName !! 1%nat.

(** [token ? tokenConfigMap.get(token) : undefined] *)
Definition entryConfigOf (entryName : string)
  : Session (option TokenConfigEntry) :=
  match shortToken entryName with
  | Some token =>
      if Js.truthy_string token then map_get token else ret None
  | None => ret None
  end.

Definition synthesizedDetails (entryName : string)
    (entryConfig : TokenConfigEntry) : CompletionEntryDetails :=
  {| ced_name := entryName;
     ced_kind := ScriptElementKind_string;
     ced_kindModifiers := tce_themeKey entryConfig;
     ced_displayParts :=
       [ {| sdp_text := String_ (tce_tokenValue entryConfig);
            sdp_kind := "markdown" |} ];
     ced_documentation := None |}.

Definition augmented_getCompletionEntryDetails (fileName : string)
    (position : Z) (entryName : string)
    (formatOptions : option FormatCodeSettings) (source : option string)
    (preferences : option UserPreferences)
    (data : option CompletionEntryData)
  : Session (option CompletionEntryDetails) :=
  let* entryConfig := entryConfigOf entryName in
  let original :=
    getCompletionEntryDetails (languageService info) fileName position
      entryName formatOptions source preferences data in
  match entryConfig with
  | None => ret original
  | Some entryConfig => ret (Some (synthesizedDetails entryName entryConfig))
  end.
End Augmented.

(** *** [create] *)

(** The decorator object: every operation forwards to the host. *)
Definition passThrough (ls : LanguageService) : ProxyService :=
  {| proxy_getSemanticDiagnostics :=
       fun fileName => ret (getSemanticDiagnostics ls fileName);
     proxy_getCodeFixesAtPosition :=
       fun fileName start end_ errorCodes formatOptions preferences =>
         ret (getCodeFixesAtPosition ls fileName start end_ errorCodes
                formatOptions preferences);
     proxy_getCompletionsAtPosition :=
       fun fileName position options =>
         ret (getCompletionsAtPosition ls fileName position options);
     proxy_getCompletionEntryDetails :=
       fun fileName position entryName formatOptions source preferences
           data =>
         ret (getCompletionEntryDetails ls fileName position entryName
                formatOptions source preferences data) |}.

(** What [create] leaves behind: the lines sent to the logger, the
    session cache if one was made, and the proxy given to the host. *)
Record Plugin : Type := {
  plugin_log : list string;
  plugin_tokenConfigMap : option TokenConfigMap;
  plugin_proxy : ProxyService
}.

Definition create (info : PluginCreateInfo) : Plugin :=
  let proxy := passThrough (languageService info) in
  let cwd := project_currentDirectory info in
  let configPath :=
    getConfigPath Tokenami cwd (config_configPath info) in
  let configExists := fileExists configPath in
  if negb configExists then
    {| plugin_log := ["TOKENAMI: Cannot find config"];
       plugin_tokenConfigMap := None;
       plugin_proxy := proxy |}
  else
    let config := getConfigAtPath Tokenami configPath in
    {| plugin_log := [];
       plugin_tokenConfigMap := Some ∅;
       plugin_proxy :=
         {| proxy_getSemanticDiagnostics :=
              fun fileName =>
                ret (augmented_getSemanticDiagnostics info config fileName);
            proxy_getCodeFixesAtPosition :=
              fun fileName start end_ errorCodes formatOptions preferences =>
                ret (augmented_getCodeFixesAtPosition info fileName start
                       end_ errorCodes formatOptions preferences);
            proxy_getCompletionsAtPosition :=
              augmented_getCompletionsAtPosition info config;
            proxy_getCompletionEntryDetails :=
              augmented_getCompletionEntryDetails info |} |}.

(** ** Sessions: sequences of intercepted operations *)

Inductive Operation : Type :=
| GetSemanticDiagnostics (fileName : string)
| GetCodeFixesAtPosition (fileName : string) (start end_ : Z)
    (errorCodes : list Z) (formatOptions : FormatCodeSettings)
    (preferences : UserPreferences)
| GetCompletionsAtPosition (fileName : string) (position : Z)
    (options : option GetCompletionsAtPositionOptions)
| GetCompletionEntryDetails (fileName : string) (position : Z)
    (entryName : string) (formatOptions : option FormatCodeSettings)
    (source : option string) (preferences : option UserPreferences)
    (data : option CompletionEntryData).

(** The session cache after the host has called [op] on [proxy]. *)
Definition perform (proxy : ProxyService) (op : Operation)
    (m : TokenConfigMap) : TokenConfigMap :=
  match op with
  | GetSemanticDiagnostics fileName =>
      snd (proxy_getSemanticDiagnostics proxy fileName m)
  | GetCodeFixesAtPosition fileName start end_ errorCodes formatOptions
      preferences =>
      snd (proxy_getCodeFixesAtPosition proxy fileName start end_
             errorCodes formatOptions preferences m)
  | GetCompletionsAtPosition fileName position options =>
      snd (proxy_getCompletionsAtPosition proxy fileName position options m)
  | GetCompletionEntryDetails fileName position entryName formatOptions
      source preferences data =>
      snd (proxy_getCompletionEntryDetails proxy fileName position
             entryName formatOptions source preferences data m)
  end.

Definition performAll (proxy : ProxyService) (ops : list Operation)
    (m : TokenConfigMap) : TokenConfigMap :=
  fold_left (fun m op => perform proxy op m) ops m.

(** ** Vocabulary of the statements *)

(** The nodes [visit] is called on when started at [node], in order. *)
Fixpoint preorder (node : Node) : list Node :=
  node ::
  match node with
  | StringLiteral _ _ _ => []
  | PropertyAssignment _ _ name initializer =>
      flat_map preorder [name; initializer]
  | OtherNode _ _ children => flat_map preorder children
  end.

(** The nodes [ts.forEachChild(sourceFile, visit)] reaches. *)
Definition visited (sourceFile : SourceFile) : list Node :=
  flat_map preorder (childrenOf (sf_node sourceFile)).

(** The diagnostic synthesized at [node], if [node] is a property
    assignment whose name passes the structural predicate and does not
    decode against [config]. *)
Definition selectorDiagnosticAt (config : Config) (sourceFile : SourceFile)
    (node : Node) : option Diagnostic :=
  match node with
  | PropertyAssignment _ _ name _ =>
      let property := stringLiteralText name in
      if TokenProperty_safeParse Tokenami property then
        match getTokenPropertyParts Tokenami property config with
        | None => Some (selectorDiagnostic sourceFile node property)
        | Some _ => None
        end
      else None
  | _ => None
  end.

(** Two diagnostics that differ at most in their message. *)
Definition sameButMessage (d d' : Diagnostic) : Prop :=
  d_file d' = d_file d /\ d_start d' = d_start d
  /\ d_length d' = d_length d /\ d_category d' = d_category d
  /\ d_code d' = d_code d.

(** The key and the value the completion callback stores for an entry
    named [entryName]: the entry must be a token value that resolves to
    a truthy theme value. *)
Definition recorded (config : Config) (entryName : string)
  : option (string * TokenConfigEntry) :=
  if TokenValue_safeParse Tokenami entryName then
    match getTokenValueParts Tokenami entryName with
    | Some p =>
        match themeValueOf config (Some p) with
        | Some v =>
            if truthy_value v
            then Some (token p,
                       {| tce_themeKey := themeKey p; tce_tokenValue := v |})
            else None
        | None => None
        end
    | None => None
    end
  else None.

(** The session cache once the completion callback has run on
    [entries], in order, from the cache [m]. *)
Definition recordAll (config : Config) (entries : list CompletionEntry)
    (m : TokenConfigMap) : TokenConfigMap :=
  fold_left
    (fun m entry =>
       match recorded config (ce_name entry) with
       | Some (k, v) => <[k := v]> m
       | None => m
       end)
    entries m.

(** The path [create] looks for the configuration at. *)
Definition configPathOf (info : PluginCreateInfo) : string :=
  getConfigPath Tokenami (project_currentDirectory info)
    (config_configPath info).

(** The three operations that never touch the cache. *)
Definition readsOnly (op : Operation) : bool :=
  match op with
  | GetCompletionsAtPosition _ _ _ => false
  | _ => true
  end.

(** No entry of [entries] is recorded under the key [t]. *)
Definition notRecordedUnder (config : Config) (t : string)
    (entries : list CompletionEntry) : Prop :=
  Forall (fun entry =>
            forall k v, recorded config (ce_name entry)
                        = Some (k, v) -> k <> t)
         entries.

(** The conditions under which control reaches the inner [return] of
    [getCodeFixesAtPosition]: the error codes include the invalid-value
    code, the file is known, and the node found at [start] has a
    property assignment for parent whose initializer [value] is a
    string literal with the non-empty text [text]. *)
Definition fixApplies (info : PluginCreateInfo) (fileName : string)
    (start : Z) (errorCodes : list Z) (sourceFile : SourceFile)
    (value : Node) (text : string) : Prop :=
  In INVALID_VALUE_ERROR_CODE errorCodes
  /\ sourceFileOf (languageService info) fileName = Some sourceFile
  /\ (exists node s e name,
        findNodeAtPosition sourceFile start
        = Some (node, Some (PropertyAssignment s e name value)))
  /\ stringLiteralText value = Some text
  /\ text <> EmptyString.

Section Traversal.
Variable config : Config.
Variable sourceFile : SourceFile.

(** What a visit of [node] appends to the list. *)
Definition appendedAt (node : Node) : list Diagnostic :=
  match selectorDiagnosticAt config sourceFile node with
  | Some d => [d]
  | None => []
  end.

Definition appendedOver (nodes : list Node) : list Diagnostic :=
  omap (selectorDiagnosticAt config sourceFile) nodes.

(** The statement proved of every node by induction on the tree. *)
Definition keepsShape (visitAll : list Diagnostic -> list Diagnostic)
    (nodes : list Node) : Prop :=
  forall hostPart appended,
    Forall (fun d => d_code d = INVALID_SELECTOR_ERROR_CODE) appended ->
    exists hostPart',
      visitAll (hostPart ++ appended)
      = hostPart' ++ appended ++ appendedOver nodes
      /\ Forall2 sameButMessage hostPart hostPart'.
End Traversal.

(** ** Vocabulary of the further properties *)

(** [node] is a property assignment whose name passes the structural
    predicate: the nodes at which [visit] does anything. *)
Definition isCandidate (node : Node) : bool :=
  match node with
  | PropertyAssignment _ _ name _ =>
      TokenProperty_safeParse Tokenami (stringLiteralText name)
  | _ => false
  end.

(** [d'] is [d] after a visit of the candidate assignment [node] wrote
    its message: [d] has the invalid-value code and starts where [node]
    starts. *)
Definition rewrittenAt (node : Node) (d d' : Diagnostic) : Prop :=
  exists s e name initializer,
    node = PropertyAssignment s e name initializer
    /\ TokenProperty_safeParse Tokenami (stringLiteralText name) = true
    /\ d_code d = INVALID_VALUE_ERROR_CODE
    /\ d_start d = Some s
    /\ d' = with_messageText d
              (invalidValueMessage (stringLiteralText name)
                 (stringLiteralText initializer)).

(** [d'] is [d], or [d] with the message of one of [nodes]. *)
Definition keptOrRewritten (nodes : list Node) (d d' : Diagnostic) : Prop :=
  d' = d \/ exists node, In node nodes /\ rewrittenAt node d d'.

(** The traversal [visitAll] of [nodes] keeps the host's part of the list
    in place, each entry kept or rewritten, and appends after it. *)
Definition tracksHost (config : Config) (sourceFile : SourceFile)
    (visitAll : list Diagnostic -> list Diagnostic) (nodes : list Node)
  : Prop :=
  forall hostPart appended,
    Forall (fun d => d_code d = INVALID_SELECTOR_ERROR_CODE) appended ->
    exists hostPart',
      visitAll (hostPart ++ appended)
      = hostPart' ++ appended ++ appendedOver config sourceFile nodes
      /\ Forall2 (keptOrRewritten nodes) hostPart hostPart'.

(** What the key [k] is bound to once the completion callback has run on
    [entries], when it was bound to [before] (or unbound) at the start:
    the value of the last entry recorded under [k], if there is one. *)
Definition lastRecordedFrom (config : Config) (k : string)
    (before : option TokenConfigEntry) (entries : list CompletionEntry)
  : option TokenConfigEntry :=
  fold_left
    (fun bound entry =>
       match recorded config (ce_name entry) with
       | Some (k', v) => if String.eqb k' k then Some v else bound
       | None => bound
       end)
    entries before.

(** Every binding of the cache [m] is a truthy value of the theme, filed
    under the token of a token value that resolves to it. *)
Definition holdsThemeValues (config : Config) (m : TokenConfigMap) : Prop :=
  forall k stored,
    m !! k = Some stored ->
    exists entryName, recorded config entryName = Some (k, stored).

(** ** Vocabulary of the traversal, diagnostic by diagnostic *)

(** The message that a visit of [node] writes. *)
Definition messageAt (node : Node) : string :=
  match node with
  | PropertyAssignment _ _ name initializer =>
      invalidValueMessage (stringLiteralText name)
        (stringLiteralText initializer)
  | _ => EmptyString
  end.

(** What a visit of [node] does to the host's part of the list: the body
    of [visit] without its [push]. *)
Definition rewriteAt (node : Node) (hostPart : list Diagnostic)
  : list Diagnostic :=
  if isCandidate node then
    let invalidValueIndex :=
      Js.findIndex (isInvalidValueAt node) hostPart in
    if invalidValueIndex >? -1 then
      match hostPart !! Z.to_nat invalidValueIndex with
      | Some diagnostic =>
          <[Z.to_nat invalidValueIndex :=
              with_messageText diagnostic (messageAt node)]> hostPart
      | None => hostPart
      end
    else hostPart
  else hostPart.

Definition rewriteAll (nodes : list Node) (hostPart : list Diagnostic)
  : list Diagnostic :=
  fold_left (fun acc node => rewriteAt node acc) nodes hostPart.

(** In [l], a later state of the host's list [before ++ d :: after],
    the diagnostics that match [node] and are not the first one, at the
    index [length before], are as the host gave them. *)
Definition laterKept (node : Node) (before : list Diagnostic)
    (d : Diagnostic) (after l : list Diagnostic) : Prop :=
  forall j x,
    (before ++ d :: after) !! j = Some x ->
    isInvalidValueAt node x = true ->
    j <> length before ->
    l !! j = Some x.

(** The traversal [visitAll] of [nodes] rewrites the host's part of the
    list node by node, and appends after it. *)
Definition rewritesHost (config : Config) (sourceFile : SourceFile)
    (visitAll : list Diagnostic -> list Diagnostic) (nodes : list Node)
  : Prop :=
  forall hostPart appended,
    Forall (fun d => d_code d = INVALID_SELECTOR_ERROR_CODE) appended ->
    visitAll (hostPart ++ appended)
    = rewriteAll nodes hostPart ++ appended
      ++ appendedOver config sourceFile nodes.
End Plugin.

Arguments getConfigPath {host_types} _ _ _.
Arguments getConfigAtPath {host_types} _ _.
Arguments TokenProperty_safeParse {host_types} _ _.
Arguments TokenValue_safeParse {host_types} _ _.
Arguments getTokenPropertyParts {host_types} _ _ _.
Arguments getTokenValueParts {host_types} _ _.
Arguments arbitraryValue {host_types} _ _.

(** The text of an optional capture: nothing when it did not take part. *)
Definition quoteText (g : option string) : string :=
  match g with
  | Some q => q
  | None => EmptyString
  end.

(** A capture of the quote group: absent, or one quote character. *)
Definition quoteCapture (g : option string) : Prop :=
  g = None
  \/ exists c, Js.is_quote c = true /\ g = Some (String c EmptyString).

(** Every character of [w] is a bracket character of the pattern. *)
Fixpoint allWordShape (w : string) : bool :=
  match w with
  | EmptyString => true
  | String c w' => Js.is_word_shape_char c && allWordShape w'
  end.

(** [s] has no occurrence of the character [c]. *)
Fixpoint lacks (c : ascii) (s : string) : bool :=
  match s with
  | EmptyString => true
  | String c' s' => negb (Ascii.eqb c' c) && lacks c s'
  end.

(** ** A sample project

    A stand-in for the configuration package and for the host, used to run
    the plugin on concrete inputs: a grammar given by a small table, a
    theme, and source files holding one property assignment. *)

Module Sample.

(** Numbers restricted to the integers. *)
Definition host_types : HostTypes :=
  {| JsNumber := Z;
     number_truthy := fun n => negb (n =? 0);
     number_toString := fun n => NilEmpty.string_of_int (Z.to_int n);
     FormatCodeSettings := unit;
     UserPreferences := unit;
     GetCompletionsAtPositionOptions := unit;
     CompletionEntryData := unit |}.

#[local] Existing Instance host_types.

Definition config : Config :=
  {| theme :=
       {[ "color" := {[ "blue" := ThemeString "#00f" ]};
          "space" := {[ "none" := ThemeNumber 0; "sm" := ThemeNumber 4 ]} ]};
     responsive := Some {[ "md" := "min-width: 700px"; "print" := EmptyString ]} |}.

Definition plainParts (cssProperty : string) : TokenPropertyParts :=
  {| tpp_selector := None; tpp_responsive := None;
     tpp_cssProperty := cssProperty |}.

Definition responsiveParts (variant cssProperty : string)
  : TokenPropertyParts :=
  {| tpp_selector := None; tpp_responsive := Some variant;
     tpp_cssProperty := cssProperty |}.

(** The property names of the sample grammar and what they decode to;
    the selector [sm] of the last one is not in the theme. *)
Definition propertyTable : list (string * option TokenPropertyParts) :=
  [ ("p", Some (plainParts "p"));
    ("md$p", Some (responsiveParts "md" "p"));
    ("print$p", Some (responsiveParts "print" "p"));
    ("ai$sm", None) ].

Definition valueTable : list (string * TokenValueParts) :=
  [ ("$blue", {| themeKey := "color"; token := "blue" |});
    ("$none", {| themeKey := "space"; token := "none" |});
    ("$sm", {| themeKey := "space"; token := "sm" |}) ].

Fixpoint assoc {A} (k : string) (l : list (string * A)) : option A :=
  match l with
  | [] => None
  | (k', a) :: l' => if String.eqb k k' then Some a else assoc k l'
  end.

Definition configFile : string := "/app/.tokenami/tokenami.config.js".

Definition tokenami : TokenamiModule :=
  {| getConfigPath := fun cwd override =>
       match override with
       | Some path => path
       | None => cwd +:+ "/.tokenami/tokenami.config.js"
       end;
     getConfigAtPath := fun _ => config;
     TokenProperty_safeParse := fun property =>
       match property with
       | Some p => bool_decide (is_Some (assoc p propertyTable))
       | None => false
       end;
     TokenValue_safeParse := fun s =>
       bool_decide (is_Some (assoc s valueTable));
     getTokenPropertyParts := fun property _ =>
       match property with
       | Some p => default None (assoc p propertyTable)
       | None => None
       end;
     getTokenValueParts := fun s => assoc s valueTable;
     arbitraryValue := fun v => "var(---," +:+ v +:+ ")" |}.

Definition fileExists (path : string) : bool := String.eqb path configFile.

Definition len (s : string) : Z := Z.of_nat (String.length s).

(** The assignment [ 'name': 'value' ] placed at offset 6. *)
Definition assignment (name value : string) : Node :=
  let nameEnd := 6 + len name + 2 in
  let valueStart := nameEnd + 2 in
  let valueEnd := valueStart + len value + 2 in
  PropertyAssignment 6 valueEnd
    (StringLiteral 6 nameEnd name)
    (StringLiteral valueStart valueEnd value).

(** The file [x = { 'name': 'value' }]. *)
Definition fileWith (name value : string) : SourceFile :=
  let node := assignment name value in
  let fileEnd := getEnd node + 2 in
  {| sf_fileName := "/app/index.ts";
     sf_text := "x = { '" +:+ name +:+ "': '" +:+ value +:+ "' }";
     sf_node :=
       OtherNode 0 fileEnd
         [ OtherNode 0 fileEnd
             [ OtherNode 0 1 []; OtherNode 4 fileEnd [ node ] ] ] |}.

Definition hostFix : CodeFixAction :=
  {| fix_description := "Change spelling";
     fix_fixName := "spelling";
     fix_changes := [];
     fix_fixId := None |}.

Definition hostDetails (entryName : string) : CompletionEntryDetails :=
  {| ced_name := entryName;
     ced_kind := "property";
     ced_kindModifiers := EmptyString;
     ced_displayParts := [];
     ced_documentation := None |}.

Definition entry (name : string) : CompletionEntry :=
  {| ce_name := name; ce_kind := "property"; ce_kindModifiers := None;
     ce_sortText := "11"; ce_insertText := None; ce_labelDetails := None |}.

Definition completionsOf (entries : list CompletionEntry) : CompletionInfo :=
  {| ci_isGlobalCompletion := false;
     ci_isMemberCompletion := true;
     ci_isNewIdentifierLocation := false;
     ci_entries := entries |}.

(** A host serving one file, with the given diagnostics and completion
    entries; it offers [hostFix] everywhere. *)
Definition host (sourceFile : SourceFile) (diagnostics : list Diagnostic)
    (entries : list CompletionEntry) : LanguageService :=
  {| getProgram :=
       Some {| getSourceFile := fun fileName =>
                 if String.eqb fileName (sf_fileName sourceFile)
                 then Some sourceFile else None |};
     getSemanticDiagnostics := fun _ => diagnostics;
     getCodeFixesAtPosition := fun _ _ _ _ _ _ => [hostFix];
     getCompletionsAtPosition := fun _ _ _ => Some (completionsOf entries);
     getCompletionEntryDetails := fun _ _ entryName _ _ _ _ =>
       Some (hostDetails entryName) |}.

Definition info (ls : LanguageService) : PluginCreateInfo :=
  {| languageService := ls;
     project_currentDirectory := "/app";
     config_configPath := None |}.

(** The host's own complaint about the value of the sample assignment. *)
Definition notAssignable (sourceFile : SourceFile) (start : Z)
  : Diagnostic :=
  {| d_file := Some sourceFile; d_start := Some start; d_length := Some 1;
     d_messageText := MessageString "Type is not assignable.";
     d_category := Error; d_code := 2322 |}.

(** No file exists: the configuration is missing. *)
Definition missing (path : string) : bool := false.

(** [x = { 'p': 'red' }], no diagnostics, no completion entries. *)
Definition redFile : SourceFile := fileWith "p" "red".
Definition redInfo : PluginCreateInfo := info (host redFile [] []).

(** [x = { 'ai$sm': 'red' }], and a host without diagnostics. *)
Definition unresolvedFile : SourceFile := fileWith "ai$sm" "red".
Definition unresolvedInfo : PluginCreateInfo :=
  info (host unresolvedFile [] []).

(** [x = { 'p': '10 px' }]: a value that is not word-shaped. *)
Definition spacedFile : SourceFile := fileWith "p" "10 px".
Definition spacedInfo : PluginCreateInfo := info (host spacedFile [] []).

(** [x = { 'p': '' }], about which the host complains twice. *)
Definition emptyFile : SourceFile := fileWith "p" EmptyString.
Definition emptyInfo : PluginCreateInfo :=
  info (host emptyFile
          [notAssignable emptyFile 6; notAssignable emptyFile 6] []).

(** A host whose completion list mixes properties, values and others. *)
Definition entries : list CompletionEntry :=
  [ entry "ai$sm"; entry "md$p"; entry "print$p"; entry "$blue";
    entry "$none"; entry "zzz" ].
Definition entriesInfo : PluginCreateInfo := info (host redFile [] entries).

(** A session cache holding the token [sm] of the theme key [space]. *)
Definition smEntry : TokenConfigEntry :=
  {| tce_themeKey := "space"; tce_tokenValue := ThemeNumber 4 |}.
Definition smCache : gmap string TokenConfigEntry := {[ "sm" := smEntry ]}.
(** [x = { 'zzz': 'red' }]: the name is no token property. *)
Definition plainFile : SourceFile := fileWith "zzz" "red".
Definition plainInfo : PluginCreateInfo :=
  info (host plainFile [notAssignable plainFile 6] []).

(** A complaint of the host that is none of the plugin's business. *)
Definition missingComma (sourceFile : SourceFile) (start : Z) : Diagnostic :=
  {| d_file := Some sourceFile; d_start := Some start; d_length := Some 1;
     d_messageText := MessageString "',' expected.";
     d_category := Error; d_code := 1005 |}.

(** [x = { 'p': 'red' }] with three complaints of the host: one with
    another code at the assignment, one about the value of the
    assignment, and one about a value elsewhere. *)
Definition mixedInfo : PluginCreateInfo :=
  info (host redFile
          [missingComma redFile 6; notAssignable redFile 6;
           notAssignable redFile 0] []).

(** [x = { 'p': 'red' }] with the complaint about the value of the
    assignment given twice, between two others. *)
Definition twiceInfo : PluginCreateInfo :=
  info (host redFile
          [missingComma redFile 6; notAssignable redFile 6;
           notAssignable redFile 6; notAssignable redFile 0] []).

Definition blueEntry : TokenConfigEntry :=
  {| tce_themeKey := "color"; tce_tokenValue := ThemeString "#00f" |}.
End Sample.

(** Induction over trees: a property holds of every node when it holds of
    a node as soon as it holds of the node's children. *)
Section NodeInduction.
Variable P : Node -> Prop.
Hypothesis step : forall node, Forall P (childrenOf node) -> P node.

Fixpoint Node_children_ind (node : Node) : P node :=
  step node
    match node return Forall P (childrenOf node) with
    | StringLiteral _ _ _ => @List.Forall_nil Node P
    | PropertyAssignment _ _ name initializer =>
        @List.Forall_cons Node P name [initializer]
          (Node_children_ind name)
          (@List.Forall_cons Node P initializer []
             (Node_children_ind initializer) (@List.Forall_nil Node P))
    | OtherNode _ _ children =>
        (fix all (l : list Node) : Forall P l :=
           match l with
           | [] => @List.Forall_nil Node P
           | child :: l' =>
               @List.Forall_cons Node P child l'
                 (Node_children_ind child) (all l')
           end) children
    end.
End NodeInduction.

(** * Properties *)

(** ** Arrays and strings *)

Example split_dollar_blue : Js.split Js.dollar "$blue" = [EmptyString; "blue"].
Proof. reflexivity. Qed.

Example split_no_dollar : Js.split Js.dollar "blue" = ["blue"].
Proof. reflexivity. Qed.

Example split_three : Js.split Js.dollar "ai$sm$x" = ["ai"; "sm"; "x"].
Proof. reflexivity. Qed.

Example replace_quoted :
  Js.replace_word_shape "'red'" "$1var(---,red)$2" = "'var(---,red)'".
Proof. reflexivity. Qed.

Example replace_no_match :
  Js.replace_word_shape "'10 px'" "$1var(---,10 px)$2" = "'10 px'".
Proof. reflexivity. Qed.

Example substitution_two_digits :
  Js.GetSubstitution "m" EmptyString EmptyString [Some "a"; None] "$10|$2|$00|$$1|$&|$3"
  = "a0||$00|$1|m|$3".
Proof. reflexivity. Qed.

Section FindIndex.
Context {A : Type} (p : A -> bool).

Lemma findIndex_range (l : list A) :
  -1 <= Js.findIndex p l < Z.of_nat (length l).
Proof.
  induction l as [|x l IH]; simpl; [lia|].
  destruct (p x); [lia|].
  destruct (Z.ltb_spec (Js.findIndex p l) 0); lia.
Qed.

Lemma findIndex_none (l : list A) :
  Forall (fun x => p x = false) l -> Js.findIndex p l = -1.
Proof.
  induction 1 as [|x l Hx _ IH]; simpl; [reflexivity|].
  rewrite Hx, IH. reflexivity.
Qed.

Lemma findIndex_first (before : list A) (d : A) (after : list A) :
  Forall (fun x => p x = false) before -> p d = true ->
  Js.findIndex p (before ++ d :: after) = Z.of_nat (length before).
Proof.
  intros Hb Hd. induction Hb as [|x l Hx _ IH]; simpl.
  - rewrite Hd. reflexivity.
  - rewrite Hx, IH.
    destruct (Z.ltb_spec (Z.of_nat (length l)) 0); lia.
Qed.

Lemma findIndex_found (l : list A) :
  0 <= Js.findIndex p l ->
  exists before d after,
    l = before ++ d :: after
    /\ Js.findIndex p l = Z.of_nat (length before)
    /\ p d = true
    /\ Forall (fun x => p x = false) before.
Proof.
  induction l as [|x l IH]; simpl; [lia|].
  destruct (p x) eqn:Hx.
  - intros _. exists [], x, l. repeat split; auto.
  - destruct (Z.ltb_spec (Js.findIndex p l) 0) as [Hlt|Hge]; [lia|].
    intros _. destruct (IH Hge) as (b & d & a & -> & Hi & Hd & Hb).
    exists (x :: b), d, a. repeat split; auto.
    simpl length. lia.
Qed.

Lemma findIndex_app_none (l t : list A) :
  Forall (fun x => p x = false) t ->
  Js.findIndex p (l ++ t) = Js.findIndex p l.
Proof.
  intros Ht. induction l as [|x l IH]; simpl.
  - apply findIndex_none, Ht.
  - rewrite IH. reflexivity.
Qed.
End FindIndex.

Lemma truthy_string_true (s : string) :
  Js.truthy_string s = true <-> s <> EmptyString.
Proof. destruct s; simpl; split; congruence. Qed.

Lemma split_nonempty (sep : ascii) (s : string) : Js.split sep s <> [].
Proof.
  induction s as [|c s IH]; simpl; [discriminate|].
  destruct (Ascii.eqb c sep); [discriminate|].
  destruct (Js.split sep s); [contradiction|discriminate].
Qed.

(** A text without the separator is the only piece of its split. *)
Lemma split_lacks (sep : ascii) (s : string) :
  lacks sep s = true -> Js.split sep s = [s].
Proof.
  induction s as [|c s IH]; simpl; [reflexivity|].
  intros [Hc Hs]%andb_true_iff. apply negb_true_iff in Hc.
  rewrite Hc, (IH Hs). reflexivity.
Qed.

(** The first piece ends at the first separator. *)
Lemma split_app (sep : ascii) (a rest : string) :
  lacks sep a = true ->
  Js.split sep (a +:+ String sep rest) = a :: Js.split sep rest.
Proof.
  induction a as [|c a IH]; simpl.
  - intros _. rewrite Ascii.eqb_refl. reflexivity.
  - intros [Hc Ha]%andb_true_iff. apply negb_true_iff in Hc.
    rewrite Hc, (IH Ha). reflexivity.
Qed.

Lemma split_head_lacks (sep : ascii) (b : string) (tail : list string) (s : string) :
  Js.split sep s = b :: tail -> lacks sep b = true.
Proof.
  revert b tail. induction s as [|c s IH]; simpl; intros b tail.
  - intros [= <- <-]. reflexivity.
  - destruct (Ascii.eqb c sep) eqn:Hc.
    + intros [= <- <-]. reflexivity.
    + destruct (Js.split sep s) as [|seg rest] eqn:Hs.
      * intros [= <- <-]. simpl. rewrite Hc. reflexivity.
      * intros [= <- <-]. simpl. rewrite Hc. simpl. eapply IH. reflexivity.
Qed.

(** ** The code-fix pattern *)

(** What the pattern denotes: an optional quote, a non-empty run of
    bracket characters, an optional quote, and nothing else. *)
Lemma quote_not_word_shape (c : ascii) :
  Js.is_quote c = true -> Js.is_word_shape_char c = false.
Proof.
  unfold Js.is_quote. intros [H|H]%orb_true_iff;
    apply Ascii.eqb_eq in H; subst c; reflexivity.
Qed.

Lemma append_nil (s : string) : EmptyString +:+ s = s.
Proof. reflexivity. Qed.

Lemma append_nil_r (s : string) : s +:+ EmptyString = s.
Proof.
  induction s as [|c s IH]; [reflexivity|].
  change (String c s +:+ EmptyString) with (String c (s +:+ EmptyString)).
  rewrite IH. reflexivity.
Qed.

Lemma append_cons (c : ascii) (w s : string) :
  String c w +:+ s = String c (w +:+ s).
Proof. reflexivity. Qed.

Lemma span_word_shape_run (w rest : string) :
  allWordShape w = true ->
  match rest with
  | EmptyString => True
  | String c _ => Js.is_word_shape_char c = false
  end ->
  Js.span_word_shape (w +:+ rest) = (w, rest).
Proof.
  intros Hw Hrest.
  induction w as [|c w IH]; cbn [allWordShape] in Hw.
  - rewrite append_nil. destruct rest as [|c rest]; [reflexivity|].
    cbn [Js.span_word_shape]. rewrite Hrest. reflexivity.
  - apply andb_true_iff in Hw as [Hc Hw].
    rewrite append_cons. cbn [Js.span_word_shape].
    rewrite Hc, (IH Hw). reflexivity.
Qed.

Lemma span_word_shape_split (s w rest : string) :
  Js.span_word_shape s = (w, rest) ->
  s = w +:+ rest /\ allWordShape w = true.
Proof.
  revert w rest.
  induction s as [|c s IH]; cbn [Js.span_word_shape]; intros w rest.
  - intros [= <- <-]. split; reflexivity.
  - destruct (Js.is_word_shape_char c) eqn:Hc.
    + destruct (Js.span_word_shape s) as [w' rest'].
      intros [= <- <-]. destruct (IH w' rest' eq_refl) as [-> Hw'].
      cbn [allWordShape]. rewrite Hc.
      split; [reflexivity|exact Hw'].
    + intros [= <- <-]. split; reflexivity.
Qed.

Lemma optional_quote_split (s rest : string) (g : option string) :
  Js.optional_quote s = (g, rest) ->
  s = quoteText g +:+ rest /\ quoteCapture g.
Proof.
  unfold Js.optional_quote. destruct s as [|c s].
  - intros [= <- <-]. split; [reflexivity|left; reflexivity].
  - destruct (Js.is_quote c) eqn:Hc; intros [= <- <-].
    + split; [reflexivity|right; exists c; auto].
    + split; [reflexivity|left; reflexivity].
Qed.

(** Every match of the executable matcher is a match of the pattern. *)
Lemma exec_word_shape_sound (s : string) (captures : list (option string)) :
  Js.exec_word_shape s = Some captures ->
  exists g1 w g2,
    captures = [g1; g2]
    /\ s = quoteText g1 +:+ w +:+ quoteText g2
    /\ quoteCapture g1 /\ quoteCapture g2
    /\ w <> EmptyString /\ allWordShape w = true.
Proof.
  unfold Js.exec_word_shape.
  destruct (Js.optional_quote s) as [g1 s1] eqn:H1.
  destruct (Js.span_word_shape s1) as [w s2] eqn:Hw.
  destruct w as [|c w]; [discriminate|].
  destruct (Js.optional_quote s2) as [g2 s3] eqn:H2.
  destruct s3; [|discriminate]. intros [= <-].
  apply optional_quote_split in H1 as [-> Hg1].
  apply span_word_shape_split in Hw as [-> Hall].
  apply optional_quote_split in H2 as [-> Hg2].
  exists g1, (String c w), g2. repeat split; try assumption.
  - rewrite (append_nil_r (quoteText g2)). reflexivity.
  - discriminate.
Qed.

(** Every text the pattern denotes is matched, with the quotes as
    captures. *)
Lemma exec_word_shape_complete (g1 g2 : option string) (w : string) :
  quoteCapture g1 -> quoteCapture g2 ->
  w <> EmptyString -> allWordShape w = true ->
  Js.exec_word_shape (quoteText g1 +:+ w +:+ quoteText g2)
  = Some [g1; g2].
Proof.
  intros Hg1 Hg2 Hne Hall. unfold Js.exec_word_shape.
  assert (H1 : Js.optional_quote (quoteText g1 +:+ w +:+ quoteText g2)
               = (g1, w +:+ quoteText g2)).
  { destruct Hg1 as [->|(c & Hc & ->)]; simpl.
    - destruct w as [|c w]; [contradiction|]. simpl in *.
      apply andb_true_iff in Hall as [Hc _].
      destruct (Js.is_quote c) eqn:Hq; [|reflexivity].
      rewrite (quote_not_word_shape c Hq) in Hc. discriminate.
    - rewrite Hc. reflexivity. }
  rewrite H1.
  assert (H2 : Js.span_word_shape (w +:+ quoteText g2) = (w, quoteText g2)).
  { apply span_word_shape_run; [exact Hall|].
    destruct Hg2 as [->|(c & Hc & ->)]; simpl; [exact I|].
    apply quote_not_word_shape, Hc. }
  rewrite H2. destruct w as [|c w]; [contradiction|].
  destruct Hg2 as [->|(c2 & Hc2 & ->)]; simpl; [reflexivity|].
  rewrite Hc2. reflexivity.
Qed.

(** A template without a dollar stands for itself. *)
Lemma GetSubstitution_plain (matched before after : string)
    (captures : list (option string)) (template : string) :
  lacks Js.dollar template = true ->
  Js.GetSubstitution matched before after captures template = template.
Proof.
  induction template as [|c template IH]; simpl; [reflexivity|].
  intros [Hc Ht]%andb_true_iff. rewrite Hc, (IH Ht). reflexivity.
Qed.

(** The template of the code fix, around a text without a dollar: the
    two captured quotes around that text. *)
Lemma GetSubstitution_quoted (matched before after : string)
    (g1 g2 : option string) (inner : string) :
  lacks Js.dollar inner = true ->
  Js.GetSubstitution matched before after [g1; g2]
    ("$1" +:+ inner +:+ "$2")
  = quoteText g1 +:+ inner +:+ quoteText g2.
Proof.
  intros Hinner.
  assert (Htail : Js.GetSubstitution matched before after [g1; g2]
                    (inner +:+ "$2")
                  = inner +:+ quoteText g2).
  { clear -Hinner. induction inner as [|c inner IH].
    - rewrite append_nil.
      change (Js.GetSubstitution matched before after [g1; g2] "$2")
        with (Js.capture_ref [g1; g2] 2
                (String Js.dollar (String "2" EmptyString))
              +:+ EmptyString).
      rewrite append_nil_r. destruct g2; reflexivity.
    - cbn [lacks] in Hinner. apply andb_true_iff in Hinner as [Hc Hinner].
      rewrite !append_cons. cbn [Js.GetSubstitution].
      rewrite Hc, (IH Hinner). reflexivity. }
  change ("$1" +:+ inner +:+ "$2")
    with (String Js.dollar (String "1" (inner +:+ "$2"))).
  cbn [Js.GetSubstitution]. cbv beta iota zeta.
  change (Ascii.eqb Js.dollar Js.dollar) with true.
  cbn [negb].
  change (Ascii.eqb "1" Js.dollar) with false.
  change (Ascii.eqb "1" (ascii_of_nat 38)) with false.
  change (Ascii.eqb "1" (ascii_of_nat 96)) with false.
  change (Ascii.eqb "1" Js.squote) with false.
  change (Js.digit_value "1") with (Some 1%nat).
  cbv iota.
  assert (Hone : Js.capture_ref [g1; g2] 1 (String Js.dollar (String "1" EmptyString))
                 = quoteText g1) by (destruct g1; reflexivity).
  destruct (inner +:+ "$2") as [|c2 rest2] eqn:Hrest.
  - destruct inner; discriminate.
  - rewrite <- Hrest, Htail in *.
    destruct (Js.digit_value c2) as [d2|] eqn:Hd2.
    + change (length [g1; g2] <? 10 * 1 + d2)%nat with true.
      rewrite Hone. reflexivity.
    + rewrite Hone. reflexivity.
Qed.

(** X2: the pattern of the code fix matches a text exactly when the text
    is an optional quote, a non-empty run of letters, digits, underscores
    and hyphens, and an optional quote, with nothing around; the two
    captures are the quotes, which may differ from each other or be
    missing on one side only. *)
Theorem word_shape_pattern (s : string) (captures : list (option string)) :
  Js.exec_word_shape s = Some captures
  <-> exists g1 w g2,
        captures = [g1; g2]
        /\ s = quoteText g1 +:+ w +:+ quoteText g2
        /\ quoteCapture g1 /\ quoteCapture g2
        /\ w <> EmptyString /\ allWordShape w = true.
Proof.
  split.
  - apply exec_word_shape_sound.
  - intros (g1 & w & g2 & -> & -> & Hg1 & Hg2 & Hne & Hall).
    apply exec_word_shape_complete; assumption.
Qed.

(** ** The plugin *)

Section Facts.
Context {host_types : HostTypes}.
Variable Tokenami : TokenamiModule.
Variable fileExists : string -> bool.

Abbreviation TokenConfigMap := (gmap string TokenConfigEntry).

(** *** The session cache *)

Lemma augmentEntry_cache (config : Config) (entry : CompletionEntry)
    (m : TokenConfigMap) :
  snd (augmentEntry Tokenami config entry m)
  = match recorded Tokenami config (ce_name entry) with
    | Some (k, v) => <[k := v]> m
    | None => m
    end.
Proof.
  unfold augmentEntry, markTokenValue, recorded.
  destruct (TokenValue_safeParse Tokenami (ce_name entry)); [|reflexivity].
  destruct (getTokenValueParts Tokenami (ce_name entry)) as [p|];
    [|reflexivity].
  destruct (themeValueOf config (Some p)) as [v|]; [|reflexivity].
  destruct (truthy_value v); reflexivity.
Qed.

Lemma mapS_augmentEntry_cache (config : Config)
    (entries : list CompletionEntry) (m : TokenConfigMap) :
  snd (mapS (augmentEntry Tokenami config) entries m)
  = recordAll Tokenami config entries m.
Proof.
  revert m. induction entries as [|e entries IH]; intros m;
    [reflexivity|].
  unfold recordAll. simpl. unfold bind.
  pose proof (augmentEntry_cache config e m) as He.
  destruct (augmentEntry Tokenami config e m) as [e' m'].
  simpl in He. subst m'.
  specialize (IH (match recorded Tokenami config (ce_name e) with
                  | Some (k, v) => <[k := v]> m
                  | None => m
                  end)).
  destruct (mapS (augmentEntry Tokenami config) entries _) as [es m''].
  simpl in *. exact IH.
Qed.

Lemma completions_cache (info : PluginCreateInfo) (config : Config)
    (fileName : string) (position : Z)
    (options : option GetCompletionsAtPositionOptions)
    (m : TokenConfigMap) :
  snd (augmented_getCompletionsAtPosition Tokenami info config fileName
         position options m)
  = match getCompletionsAtPosition (languageService info) fileName
            position options with
    | Some original => recordAll Tokenami config (ci_entries original) m
    | None => m
    end.
Proof.
  unfold augmented_getCompletionsAtPosition.
  destruct (getCompletionsAtPosition _ _ _ _) as [original|];
    [|reflexivity].
  unfold bind.
  pose proof (mapS_augmentEntry_cache config (ci_entries original) m) as H.
  destruct (mapS _ _ m) as [es m']. exact H.
Qed.

Lemma recordAll_dom (config : Config) (entries : list CompletionEntry)
    (m : TokenConfigMap) :
  dom m ⊆ dom (recordAll Tokenami config entries m).
Proof.
  revert m. induction entries as [|e entries IH]; intros m;
    [reflexivity|].
  unfold recordAll. simpl. etransitivity; [|apply IH].
  destruct (recorded Tokenami config (ce_name e)) as [[k v]|];
    [|reflexivity].
  rewrite dom_insert_L. set_solver.
Qed.

Lemma details_cache (info : PluginCreateInfo) (fileName : string)
    (position : Z) (entryName : string)
    (formatOptions : option FormatCodeSettings) (source : option string)
    (preferences : option UserPreferences)
    (data : option CompletionEntryData) (m : TokenConfigMap) :
  snd (augmented_getCompletionEntryDetails info fileName position
         entryName formatOptions source preferences data m) = m.
Proof.
  unfold augmented_getCompletionEntryDetails, bind, entryConfigOf.
  destruct (shortToken entryName) as [t|]; simpl; [|reflexivity].
  destruct (Js.truthy_string t); simpl; [|reflexivity].
  destruct (m !! t); reflexivity.
Qed.

Lemma perform_reads_only (info : PluginCreateInfo) (op : Operation)
    (m : TokenConfigMap) :
  readsOnly op = true ->
  perform (plugin_proxy (create Tokenami fileExists info)) op m = m.
Proof.
  unfold create.
  destruct (negb (fileExists _)); destruct op; simpl; try discriminate;
    intros _; try reflexivity.
  apply details_cache.
Qed.

Lemma perform_dom (info : PluginCreateInfo) (op : Operation)
    (m : TokenConfigMap) :
  dom m ⊆ dom (perform (plugin_proxy (create Tokenami fileExists info)) op m).
Proof.
  destruct (readsOnly op) eqn:Hop.
  - rewrite perform_reads_only by exact Hop. reflexivity.
  - destruct op; try discriminate. unfold create.
    destruct (negb (fileExists _)); simpl; [reflexivity|].
    rewrite completions_cache.
    destruct (getCompletionsAtPosition _ _ _ _); [|reflexivity].
    apply recordAll_dom.
Qed.

Lemma performAll_dom (info : PluginCreateInfo) (ops : list Operation)
    (m : TokenConfigMap) :
  dom m ⊆ dom (performAll (plugin_proxy (create Tokenami fileExists info))
                 ops m).
Proof.
  revert m. induction ops as [|op ops IH]; intros m; [reflexivity|].
  unfold performAll. simpl. etransitivity; [apply perform_dom|apply IH].
Qed.

(** *** Pass-through without a configuration *)

(** C2: when no configuration file exists at the resolved path, each of
    the four operations of the proxy returns, for every input, exactly
    what the host's operation returns (and the session state is left
    as it was). *)
Theorem no_config_pass_through (info : PluginCreateInfo) :
  fileExists (configPathOf Tokenami info) = false ->
  let proxy := plugin_proxy (create Tokenami fileExists info) in
  let host := languageService info in
  (forall fileName m,
      proxy_getSemanticDiagnostics proxy fileName m
      = (getSemanticDiagnostics host fileName, m))
  /\ (forall fileName start end_ errorCodes formatOptions preferences m,
        proxy_getCodeFixesAtPosition proxy fileName start end_ errorCodes
          formatOptions preferences m
        = (getCodeFixesAtPosition host fileName start end_ errorCodes
             formatOptions preferences, m))
  /\ (forall fileName position options m,
        proxy_getCompletionsAtPosition proxy fileName position options m
        = (getCompletionsAtPosition host fileName position options, m))
  /\ (forall fileName position entryName formatOptions source preferences
             data m,
        proxy_getCompletionEntryDetails proxy fileName position entryName
          formatOptions source preferences data m
        = (getCompletionEntryDetails host fileName position entryName
             formatOptions source preferences data, m)).
Proof.
  intros Hmissing. unfold create. fold (configPathOf Tokenami info).
  rewrite Hmissing. simpl. repeat split.
Qed.

(** C8: the session cache is created empty when the plugin is created
    with a configuration (none is created without one); over every
    sequence of operations the set of keys of the cache only grows; and
    the three operations other than [getCompletionsAtPosition] leave
    the cache as it is. *)
Theorem session_cache_only_grows (info : PluginCreateInfo) :
  let plugin := create Tokenami fileExists info in
  plugin_tokenConfigMap plugin
  = (if fileExists (configPathOf Tokenami info) then Some ∅ else None)
  /\ (forall (ops : list Operation) (m : TokenConfigMap),
        dom m ⊆ dom (performAll (plugin_proxy plugin) ops m))
  /\ (forall (op : Operation) (m : TokenConfigMap),
        match op with
        | GetCompletionsAtPosition _ _ _ => True
        | _ => perform (plugin_proxy plugin) op m = m
        end).
Proof.
  cbv zeta. split; [|split].
  - unfold create. fold (configPathOf Tokenami info).
    destruct (fileExists (configPathOf Tokenami info)); reflexivity.
  - apply performAll_dom.
  - intros op m. destruct op; try exact I;
      apply perform_reads_only; reflexivity.
Qed.

(** *** Completion details *)

Lemma details_of_token (info : PluginCreateInfo) (fileName : string)
    (position : Z) (entryName : string)
    (formatOptions : option FormatCodeSettings) (source : option string)
    (preferences : option UserPreferences)
    (data : option CompletionEntryData) (m : TokenConfigMap)
    (t : string) (entryConfig : TokenConfigEntry) :
  shortToken entryName = Some t -> t <> EmptyString ->
  m !! t = Some entryConfig ->
  augmented_getCompletionEntryDetails info fileName position entryName
    formatOptions source preferences data m
  = (Some (synthesizedDetails entryName entryConfig), m).
Proof.
  intros Ht Hne Hm.
  unfold augmented_getCompletionEntryDetails, bind, entryConfigOf.
  rewrite Ht. apply truthy_string_true in Hne. rewrite Hne.
  unfold map_get. rewrite Hm. reflexivity.
Qed.




(** *** Completions *)

Ltac destruct_value_branch config entry :=
  unfold augmentEntry, markTokenValue, recorded;
  destruct (TokenValue_safeParse Tokenami (ce_name entry));
    [|reflexivity];
  destruct (getTokenValueParts Tokenami (ce_name entry)) as [?p|];
    [|reflexivity];
  destruct (themeValueOf config (Some p)) as [?v|]; [|reflexivity];
  destruct (truthy_value v); reflexivity.

Lemma augmentEntry_entry (config : Config) (entry : CompletionEntry)
    (m : TokenConfigMap) :
  fst (augmentEntry Tokenami config entry m)
  = fst (augmentEntry Tokenami config entry ∅).
Proof. destruct_value_branch config entry. Qed.

Lemma mapS_augmentEntry_entries (config : Config)
    (entries : list CompletionEntry) (m : TokenConfigMap) :
  fst (mapS (augmentEntry Tokenami config) entries m)
  = map (fun entry => fst (augmentEntry Tokenami config entry ∅)) entries.
Proof.
  revert m. induction entries as [|e entries IH]; intros m;
    [reflexivity|].
  simpl. unfold bind.
  pose proof (augmentEntry_entry config e m) as He.
  destruct (augmentEntry Tokenami config e m) as [e' m'].
  specialize (IH m').
  destruct (mapS (augmentEntry Tokenami config) entries m') as [es m''].
  simpl in *. congruence.
Qed.

Lemma completions_entries (info : PluginCreateInfo) (config : Config)
    (fileName : string) (position : Z)
    (options : option GetCompletionsAtPositionOptions)
    (m : TokenConfigMap) (original : CompletionInfo) :
  getCompletionsAtPosition (languageService info) fileName position options
  = Some original ->
  fst (augmented_getCompletionsAtPosition Tokenami info config fileName
         position options m)
  = Some (set_entries
            (map (fun entry => fst (augmentEntry Tokenami config entry ∅))
                 (ci_entries original))
            original).
Proof.
  intros Hhost. unfold augmented_getCompletionsAtPosition.
  rewrite Hhost. unfold bind.
  pose proof (mapS_augmentEntry_entries config (ci_entries original) m)
    as H.
  destruct (mapS _ _ m) as [es m']. simpl in *. rewrite H. reflexivity.
Qed.

Lemma augmentEntry_sortText (config : Config) (entry : CompletionEntry)
    (m : TokenConfigMap) :
  ce_sortText (fst (augmentEntry Tokenami config entry m))
  = if TokenProperty_safeParse Tokenami (Some (ce_name entry))
    then "$" +:+ ce_name entry
    else ce_name entry.
Proof.
  unfold augmentEntry, markTokenValue, markTokenProperty.
  destruct (TokenProperty_safeParse Tokenami (Some (ce_name entry)));
    destruct (TokenValue_safeParse Tokenami (ce_name entry));
    try destruct (getTokenValueParts Tokenami (ce_name entry)) as [p|];
    try destruct (themeValueOf config (Some p)) as [v|];
    try destruct (truthy_value v);
    try destruct (responsiveDescription config _) as [d|];
    try destruct (Js.truthy_string d);
    reflexivity.
Qed.

Lemma responsiveDescription_configured (config : Config)
    (parts : TokenPropertyParts) (r : string)
    (descriptions : gmap string string) (d : string) :
  tpp_responsive parts = Some r -> r <> EmptyString ->
  responsive config = Some descriptions -> descriptions !! r = Some d ->
  responsiveDescription config (Some parts) = Some d.
Proof.
  intros Hr Hne Hc Hd. unfold responsiveDescription.
  apply truthy_string_true in Hne. rewrite Hr, Hne, Hc. exact Hd.
Qed.

Lemma augmentEntry_labelDetails (config : Config) (entry : CompletionEntry)
    (m : TokenConfigMap) (parts : TokenPropertyParts) (d : string) :
  TokenProperty_safeParse Tokenami (Some (ce_name entry)) = true ->
  getTokenPropertyParts Tokenami (Some (ce_name entry)) config
  = Some parts ->
  responsiveDescription config (Some parts) = Some d ->
  d <> EmptyString ->
  ce_labelDetails (fst (augmentEntry Tokenami config entry m))
  = Some {| ld_detail := Some EmptyString;
            ld_description :=
              Some (match recorded Tokenami config (ce_name entry) with
                    | Some _ => ce_name entry
                    | None => d
                    end) |}.
Proof.
  intros Hparse Hparts Hd Hne. apply truthy_string_true in Hne.
  unfold augmentEntry, markTokenValue, markTokenProperty, recorded.
  rewrite Hparse, Hparts, Hd, Hne.
  destruct (TokenValue_safeParse Tokenami (ce_name entry)); [|reflexivity].
  destruct (getTokenValueParts Tokenami (ce_name entry)) as [p|];
    [|reflexivity].
  destruct (themeValueOf config (Some p)) as [v|]; [|reflexivity].
  destruct (truthy_value v); reflexivity.
Qed.

Lemma prefixed_differs (s : string) : "$" +:+ s <> s.
Proof.
  change ("$" +:+ s) with (String Js.dollar s).
  intros H. apply (f_equal String.length) in H. simpl in H. lia.
Qed.

(** C7, as the code has it: every entry's sort key is its own name,
    unless the name passes the structural token-property predicate, and
    then (whether or not the name decodes against the configuration)
    it is the name behind the dollar marker; when the name passes the
    predicate and its parts carry a non-empty responsive variant with a
    non-empty configured description, the entry's label detail carries
    that description, unless the entry is also recorded as a token
    value, whose label detail (the full name) replaces it. *)
Theorem completion_sort_keys (info : PluginCreateInfo) (config : Config)
    (fileName : string) (position : Z)
    (options : option GetCompletionsAtPositionOptions)
    (m : TokenConfigMap) (original : CompletionInfo) :
  getCompletionsAtPosition (languageService info) fileName position options
  = Some original ->
  exists augmented : CompletionInfo,
    fst (augmented_getCompletionsAtPosition Tokenami info config fileName
           position options m) = Some augmented
    /\ Forall2
         (fun entry entry' =>
            let entryName := ce_name entry in
            let isTokenProperty :=
              TokenProperty_safeParse Tokenami (Some entryName) in
            ce_sortText entry'
            = (if isTokenProperty then "$" +:+ entryName else entryName)
            /\ (ce_sortText entry' = "$" +:+ entryName
                <-> isTokenProperty = true)
            /\ (forall parts r descriptions d,
                  isTokenProperty = true ->
                  getTokenPropertyParts Tokenami (Some entryName) config
                  = Some parts ->
                  tpp_responsive parts = Some r -> r <> EmptyString ->
                  responsive config = Some descriptions ->
                  descriptions !! r = Some d -> d <> EmptyString ->
                  ce_labelDetails entry'
                  = Some {| ld_detail := Some EmptyString;
                            ld_description :=
                              Some (match recorded Tokenami config entryName
                                    with
                                    | Some _ => entryName
                                    | None => d
                                    end) |}))
         (ci_entries original) (ci_entries augmented).
Proof.
  intros Hhost. eexists. split; [apply completions_entries, Hhost|].
  simpl. apply Forall2_fmap_r, Forall_Forall2_diag, Forall_forall.
  intros entry _. cbv zeta.
  pose proof (augmentEntry_sortText config entry ∅) as Hsort.
  split; [exact Hsort|split].
  - rewrite Hsort.
    destruct (TokenProperty_safeParse Tokenami (Some (ce_name entry)));
      split; try reflexivity; try discriminate.
    intros H. symmetry in H. destruct (prefixed_differs _ H).
  - intros parts r descriptions d Hparse Hparts Hr Hne Hc Hd Hdne.
    eapply augmentEntry_labelDetails; eauto.
    eapply responsiveDescription_configured; eauto.
Qed.

Lemma recordAll_cons (config : Config) (entry : CompletionEntry)
    (entries : list CompletionEntry) (m : TokenConfigMap) :
  recordAll Tokenami config (entry :: entries) m
  = recordAll Tokenami config entries
      (match recorded Tokenami config (ce_name entry) with
       | Some (k, v) => <[k := v]> m
       | None => m
       end).
Proof. reflexivity. Qed.

Lemma recordAll_app (config : Config) (l1 l2 : list CompletionEntry)
    (m : TokenConfigMap) :
  recordAll Tokenami config (l1 ++ l2) m
  = recordAll Tokenami config l2 (recordAll Tokenami config l1 m).
Proof. unfold recordAll. apply fold_left_app. Qed.

Lemma recordAll_lookup_other (config : Config) (t : string)
    (entries : list CompletionEntry) (m : TokenConfigMap) :
  notRecordedUnder Tokenami config t entries ->
  recordAll Tokenami config entries m !! t = m !! t.
Proof.
  intros H. revert m. induction H as [|e entries He _ IH]; intros m;
    [reflexivity|].
  rewrite recordAll_cons, IH.
  destruct (recorded Tokenami config (ce_name e)) as [[k v]|] eqn:Hrec;
    [|reflexivity].
  apply lookup_insert_ne. eapply He. reflexivity.
Qed.

Lemma recorded_resolved (config : Config) (entryName : string)
    (parts : TokenValueParts) (tokens : gmap string ThemeValue)
    (v : ThemeValue) :
  TokenValue_safeParse Tokenami entryName = true ->
  getTokenValueParts Tokenami entryName = Some parts ->
  theme config !! themeKey parts = Some tokens ->
  tokens !! token parts = Some v ->
  truthy_value v = true ->
  recorded Tokenami config entryName
  = Some (token parts,
          {| tce_themeKey := themeKey parts; tce_tokenValue := v |}).
Proof.
  intros Hparse Hparts Htheme Htoken Htruthy. unfold recorded, themeValueOf.
  rewrite Hparse, Hparts, Htheme, Htoken, Htruthy. reflexivity.
Qed.

(** C4, as the code has it: for a completion entry whose name is a
    token value with parts [{themeKey, token}] such that
    [config.theme[themeKey][token]] is a truthy value, the completion
    callback stores [token -> {themeKey, tokenValue}] in the session
    cache; the key is in the cache when [getCompletionsAtPosition]
    returns, bound to that very value unless a later entry of the same
    list is recorded under the same token; and after any further
    operations, a [getCompletionEntryDetails] call whose entry name
    has that (non-empty) token as its second dollar-separated piece
    returns the synthesized details built from what the cache then
    holds for the token. *)
Theorem completions_then_details (info : PluginCreateInfo)
    (fileName : string) (position : Z)
    (options : option GetCompletionsAtPositionOptions)
    (original : CompletionInfo)
    (earlier : list CompletionEntry) (entry : CompletionEntry)
    (later : list CompletionEntry)
    (parts : TokenValueParts) (tokens : gmap string ThemeValue)
    (tokenValue : ThemeValue) (m : TokenConfigMap) :
  let config := getConfigAtPath Tokenami (configPathOf Tokenami info) in
  let proxy := plugin_proxy (create Tokenami fileExists info) in
  fileExists (configPathOf Tokenami info) = true ->
  getCompletionsAtPosition (languageService info) fileName position options
  = Some original ->
  ci_entries original = earlier ++ entry :: later ->
  TokenValue_safeParse Tokenami (ce_name entry) = true ->
  getTokenValueParts Tokenami (ce_name entry) = Some parts ->
  theme config !! themeKey parts = Some tokens ->
  tokens !! token parts = Some tokenValue ->
  truthy_value tokenValue = true ->
  token parts <> EmptyString ->
  let stored :=
    {| tce_themeKey := themeKey parts; tce_tokenValue := tokenValue |} in
  let m1 :=
    snd (proxy_getCompletionsAtPosition proxy fileName position options m)
  in
  (forall m0,
      snd (augmentEntry Tokenami config entry m0)
      = <[token parts := stored]> m0)
  /\ is_Some (m1 !! token parts)
  /\ (notRecordedUnder Tokenami config (token parts) later ->
      m1 !! token parts = Some stored)
  /\ (forall (ops : list Operation) fileName' position' entryName
             formatOptions source preferences data,
        shortToken entryName = Some (token parts) ->
        let m2 := performAll proxy ops m1 in
        exists entryConfig : TokenConfigEntry,
          m2 !! token parts = Some entryConfig
          /\ proxy_getCompletionEntryDetails proxy fileName' position'
               entryName formatOptions source preferences data m2
             = (Some {| ced_name := entryName;
                        ced_kind := "string";
                        ced_kindModifiers := tce_themeKey entryConfig;
                        ced_displayParts :=
                          [ {| sdp_text :=
                                 String_ (tce_tokenValue entryConfig);
                               sdp_kind := "markdown" |} ];
                        ced_documentation := None |}, m2)).
Proof.
  intros config proxy Hexists Hhost Hentries Hparse Hparts Htheme Htoken
    Htruthy Hne stored m1.
  pose proof (recorded_resolved config _ _ _ _ Hparse Hparts Htheme Htoken
                Htruthy) as Hrec.
  assert (Hproxy : proxy_getCompletionsAtPosition proxy
                   = augmented_getCompletionsAtPosition Tokenami info config
          /\ proxy_getCompletionEntryDetails proxy
             = augmented_getCompletionEntryDetails info).
  { unfold proxy, create. fold (configPathOf Tokenami info). rewrite Hexists.
    split; reflexivity. }
  destruct Hproxy as [Hcompletions Hdetails].
  assert (Hm1 : m1 = recordAll Tokenami config later
                       (<[token parts := stored]>
                          (recordAll Tokenami config earlier m))).
  { unfold m1. rewrite Hcompletions, completions_cache, Hhost, Hentries.
    rewrite recordAll_app, recordAll_cons, Hrec. reflexivity. }
  assert (Hin : is_Some (m1 !! token parts)).
  { apply elem_of_dom. rewrite Hm1.
    apply (recordAll_dom config later). apply elem_of_dom.
    rewrite lookup_insert_eq. eauto. }
  split; [|split; [exact Hin|split]].
  - intros m0. rewrite augmentEntry_cache, Hrec. reflexivity.
  - intros Hlater. rewrite Hm1, recordAll_lookup_other by exact Hlater.
    apply lookup_insert_eq.
  - intros ops fileName' position' entryName formatOptions source
      preferences data Hshort m2.
    assert (Hin2 : is_Some (m2 !! token parts)).
    { apply elem_of_dom. unfold m2, proxy.
      apply (performAll_dom info ops m1). apply elem_of_dom. exact Hin. }
    destruct Hin2 as [entryConfig Hcfg]. exists entryConfig.
    split; [exact Hcfg|].
    rewrite Hdetails.
    apply (details_of_token info fileName' position' entryName
             formatOptions source preferences data m2 (token parts)
             entryConfig Hshort Hne Hcfg).
Qed.

(** *** Finding the node at a position *)

Lemma forEachChild_None {B} (cb : Node -> option B) (children : list Node) :
  forEachChild cb children = None ->
  Forall (fun child => cb child = None) children.
Proof.
  induction children as [|child rest IH]; simpl; [constructor|].
  destruct (cb child) eqn:Hchild; [discriminate|].
  intros Hrest. constructor; [exact Hchild|apply IH, Hrest].
Qed.

Lemma forEachChild_Some {B} (cb : Node -> option B) (children : list Node)
    (answer : B) :
  forEachChild cb children = Some answer ->
  exists child, In child children /\ cb child = Some answer.
Proof.
  induction children as [|child rest IH]; simpl; [discriminate|].
  destruct (cb child) eqn:Hchild.
  - intros [= ->]. exists child. split; [left; reflexivity|exact Hchild].
  - intros Hrest. destruct (IH Hrest) as (c & Hin & Hc).
    exists c. split; [right; exact Hin|exact Hc].
Qed.

Lemma find_unfold (position : Z) (parent : option Node) (node : Node) :
  find position parent node
  = if covers position node then
      match forEachChild (find position (Some node)) (childrenOf node) with
      | Some found => Some found
      | None => Some (node, parent)
      end
    else None.
Proof. destruct node; reflexivity. Qed.

Lemma find_None (position : Z) (parent : option Node) (node : Node) :
  find position parent node = None -> covers position node = false.
Proof.
  rewrite find_unfold. destruct (covers position node); [|reflexivity].
  destruct (forEachChild _ _); discriminate.
Qed.

(** The node found covers the position, none of its children does, and
    it is a child of the parent it is returned with. *)
Lemma find_smallest (position : Z) (node : Node) :
  forall parent found foundParent,
    find position parent node = Some (found, foundParent) ->
    covers position found = true
    /\ Forall (fun child => covers position child = false)
              (childrenOf found)
    /\ ((found = node /\ foundParent = parent)
        \/ exists p, foundParent = Some p /\ In found (childrenOf p)).
Proof.
  induction node as [node IH] using Node_children_ind.
  intros parent found foundParent. rewrite find_unfold.
  destruct (covers position node) eqn:Hcovers; [|discriminate].
  destruct (forEachChild (find position (Some node)) (childrenOf node))
    as [answer|] eqn:Hbelow.
  - intros [= ->].
    destruct (forEachChild_Some _ _ _ Hbelow) as (child & Hin & Hchild).
    rewrite Forall_forall in IH.
    destruct (IH child (proj2 (list_elem_of_In _ _) Hin) _ _ _ Hchild)
      as (Hfound & Hchildren & [[-> ->]|Hdeeper]).
    + repeat split; try assumption. right. exists node. split; auto.
    + repeat split; try assumption. right. exact Hdeeper.
  - intros [= <- <-]. split; [exact Hcovers|]. split; [|left; auto].
    apply forEachChild_None in Hbelow.
    eapply Forall_impl; [exact Hbelow|].
    intros child. apply find_None.
Qed.

(** *** Code fixes *)

Lemma includes_In (l : list Z) (x : Z) :
  Js.includes l x = true <-> In x l.
Proof.
  unfold Js.includes. rewrite existsb_exists. split.
  - intros (y & Hy & Heq). apply Z.eqb_eq in Heq. subst y. exact Hy.
  - intros Hx. exists x. split; [exact Hx|apply Z.eqb_refl].
Qed.

(** On a word-shaped literal, quoted or not, the replacement keeps the
    quotes and puts the arbitrary value between them, provided the
    arbitrary value holds no dollar for the template to expand. *)
Lemma arbitraryTextOf_word_shaped (g1 g2 : option string) (w value : string) :
  quoteCapture g1 -> quoteCapture g2 ->
  w <> EmptyString -> allWordShape w = true ->
  lacks Js.dollar (arbitraryValue Tokenami value) = true ->
  arbitraryTextOf Tokenami (quoteText g1 +:+ w +:+ quoteText g2) value
  = quoteText g1 +:+ arbitraryValue Tokenami value +:+ quoteText g2.
Proof.
  intros Hg1 Hg2 Hne Hall Hplain.
  unfold arbitraryTextOf, Js.replace_word_shape.
  rewrite (exec_word_shape_complete g1 g2 w Hg1 Hg2 Hne Hall).
  apply GetSubstitution_quoted, Hplain.
Qed.

Lemma arbitraryFix_applies (info : PluginCreateInfo) (fileName : string)
    (start : Z) (errorCodes : list Z) (sourceFile : SourceFile)
    (value : Node) (text : string) :
  fixApplies info fileName start errorCodes sourceFile value text ->
  arbitraryFix Tokenami info fileName start errorCodes
  = Some [replaceWithArbitrary fileName (createTextSpanFromNode value)
            (arbitraryTextOf Tokenami (getText sourceFile value) text)].
Proof.
  intros (Hcodes & Hfile & (node & s & e & name & Hfind) & Htext & Hne).
  unfold arbitraryFix.
  apply includes_In in Hcodes. apply truthy_string_true in Hne.
  rewrite Hcodes, Hfile, Hfind, Htext, Hne. reflexivity.
Qed.

Lemma arbitraryFix_Some (info : PluginCreateInfo) (fileName : string)
    (start : Z) (errorCodes : list Z) (fixes : list CodeFixAction) :
  arbitraryFix Tokenami info fileName start errorCodes = Some fixes ->
  exists sourceFile value text,
    fixApplies info fileName start errorCodes sourceFile value text.
Proof.
  unfold arbitraryFix, fixApplies.
  destruct (Js.includes errorCodes INVALID_VALUE_ERROR_CODE) eqn:Hcodes;
    [|discriminate].
  destruct (sourceFileOf (languageService info) fileName)
    as [sourceFile|]; [|discriminate].
  destruct (findNodeAtPosition sourceFile start)
    as [[node [[| s e name value |]|]]|] eqn:Hfind; try discriminate.
  destruct (stringLiteralText value) as [text|] eqn:Htext;
    [|discriminate].
  destruct (Js.truthy_string text) eqn:Hne; [|discriminate].
  intros _. exists sourceFile, value, text.
  repeat split; eauto.
  - apply includes_In, Hcodes.
  - apply truthy_string_true, Hne.
Qed.

(** C5: when the error codes include the invalid-value code and the
    node found at the start position has a property-assignment parent
    whose value is a non-empty string literal, the result is exactly one
    fix action (its description names the replacement text, it carries
    the fix identifier, and its single edit spans the value node), with
    none of the host's fixes in it; when that condition does not hold,
    the result is the host's list of fixes.  The node found is the
    smallest one covering the start position: it covers the position,
    none of its children does, and it is a child of its parent. *)
Theorem code_fix_single_action (info : PluginCreateInfo)
    (fileName : string) (start end_ : Z) (errorCodes : list Z)
    (formatOptions : FormatCodeSettings) (preferences : UserPreferences) :
  let fixes :=
    augmented_getCodeFixesAtPosition Tokenami info fileName start end_
      errorCodes formatOptions preferences in
  let original :=
    getCodeFixesAtPosition (languageService info) fileName start end_
      errorCodes formatOptions preferences in
  (forall sourceFile value text,
      fixApplies info fileName start errorCodes sourceFile value text ->
      let arbitraryText :=
        arbitraryTextOf Tokenami (getText sourceFile value) text in
      fixes
      = [ {| fix_description :=
               "Use " +:+ arbitraryText +:+ " to mark as arbitrary";
             fix_fixName := "replaceWithArbitrary";
             fix_changes :=
               [ {| ftc_fileName := fileName;
                    ftc_textChanges :=
                      [ {| tc_span :=
                             {| span_start := getStart value;
                                span_length := getEnd value - getStart value
                             |};
                           tc_newText := arbitraryText |} ] |} ];
             fix_fixId := None |} ])
  /\ ((~ exists sourceFile value text,
          fixApplies info fileName start errorCodes sourceFile value text)
      -> fixes = original)
  /\ (forall sourceFile node parent,
        findNodeAtPosition sourceFile start = Some (node, parent) ->
        covers start node = true
        /\ Forall (fun child => covers start child = false)
                  (childrenOf node)
        /\ (forall p, parent = Some p -> In node (childrenOf p))).
Proof.
  cbv zeta. unfold augmented_getCodeFixesAtPosition. split; [|split].
  - intros sourceFile value text Happlies.
    rewrite (arbitraryFix_applies _ _ _ _ _ _ _ Happlies). reflexivity.
  - intros Hnot.
    destruct (arbitraryFix Tokenami info fileName start errorCodes)
      as [fixes|] eqn:Hfix; [|reflexivity].
    destruct Hnot. eapply arbitraryFix_Some, Hfix.
  - intros sourceFile node parent Hfind.
    destruct (find_smallest _ _ _ _ _ Hfind)
      as (Hcovers & Hchildren & Hparent).
    split; [exact Hcovers|]. split; [exact Hchildren|].
    intros p ->. destruct Hparent as [[_ [=]]|(p' & [= <-] & Hin)].
    exact Hin.
Qed.

(** C3, as the code has it: when the error codes include the
    invalid-value code and the node found has a property-assignment
    parent with a non-empty string-literal value whose source text does
    not match the word-shape pattern, the replacement text is the
    unmodified source text of the literal, and one fix carrying that
    text is still returned. *)
Theorem code_fix_without_word_shape (info : PluginCreateInfo)
    (fileName : string) (start end_ : Z) (errorCodes : list Z)
    (formatOptions : FormatCodeSettings) (preferences : UserPreferences)
    (sourceFile : SourceFile) (value : Node) (text : string) :
  fixApplies info fileName start errorCodes sourceFile value text ->
  Js.exec_word_shape (getText sourceFile value) = None ->
  arbitraryTextOf Tokenami (getText sourceFile value) text
  = getText sourceFile value
  /\ augmented_getCodeFixesAtPosition Tokenami info fileName start end_
       errorCodes formatOptions preferences
     = [ {| fix_description :=
              "Use " +:+ getText sourceFile value
              +:+ " to mark as arbitrary";
            fix_fixName := "replaceWithArbitrary";
            fix_changes :=
              [ {| ftc_fileName := fileName;
                   ftc_textChanges :=
                     [ {| tc_span := createTextSpanFromNode value;
                          tc_newText := getText sourceFile value |} ] |} ];
            fix_fixId := None |} ].
Proof.
  intros Happlies Hnomatch.
  assert (Htext : arbitraryTextOf Tokenami (getText sourceFile value) text
                  = getText sourceFile value).
  { unfold arbitraryTextOf, Js.replace_word_shape.
    rewrite Hnomatch. reflexivity. }
  split; [exact Htext|].
  unfold augmented_getCodeFixesAtPosition.
  rewrite (arbitraryFix_applies _ _ _ _ _ _ _ Happlies), Htext.
  reflexivity.
Qed.


(** *** Diagnostics *)

Section Diagnostics.
Variable config : Config.
Variable sourceFile : SourceFile.

Lemma isInvalidValueAt_iff (node : Node) (d : Diagnostic) :
  isInvalidValueAt node d = true
  <-> d_code d = INVALID_VALUE_ERROR_CODE
      /\ d_start d = Some (getStart node).
Proof.
  unfold isInvalidValueAt. rewrite andb_true_iff, Z.eqb_eq.
  destruct (d_start d) as [s|].
  - rewrite Z.eqb_eq. split; intros [? ?]; split; congruence.
  - split; intros [? ?]; discriminate.
Qed.

Lemma none_matches_before (node : Node) (before : list Diagnostic) :
  Forall (fun d => ~ (d_code d = INVALID_VALUE_ERROR_CODE
                      /\ d_start d = Some (getStart node))) before ->
  Forall (fun d => isInvalidValueAt node d = false) before.
Proof.
  intros H. eapply Forall_impl; [exact H|].
  intros d Hd. destruct (isInvalidValueAt node d) eqn:Hmatch;
    [|reflexivity].
  destruct Hd. apply isInvalidValueAt_iff, Hmatch.
Qed.

Lemma isInvalidValueAt_selector (node : Node) (d : Diagnostic) :
  d_code d = INVALID_SELECTOR_ERROR_CODE ->
  isInvalidValueAt node d = false.
Proof. unfold isInvalidValueAt. intros ->. reflexivity. Qed.

Lemma appendedAt_code (node : Node) :
  Forall (fun d => d_code d = INVALID_SELECTOR_ERROR_CODE)
         (appendedAt Tokenami config sourceFile node).
Proof.
  unfold appendedAt, selectorDiagnosticAt.
  destruct node as [| s e name initializer |]; try constructor.
  destruct (TokenProperty_safeParse _ _); [|constructor].
  destruct (getTokenPropertyParts _ _ _); repeat constructor.
Qed.

Lemma appendedOver_code (nodes : list Node) :
  Forall (fun d => d_code d = INVALID_SELECTOR_ERROR_CODE)
         (appendedOver Tokenami config sourceFile nodes).
Proof.
  unfold appendedOver. induction nodes as [|n nodes IH]; simpl;
    [constructor|].
  pose proof (appendedAt_code n) as Hn. unfold appendedAt in Hn.
  destruct (selectorDiagnosticAt _ _ _ n); [|exact IH].
  constructor; [|exact IH]. inversion Hn; assumption.
Qed.

Lemma selector_never_matches (node : Node) (l : list Diagnostic) :
  Forall (fun d => d_code d = INVALID_SELECTOR_ERROR_CODE) l ->
  Forall (fun d => isInvalidValueAt node d = false) l.
Proof.
  intros H. eapply Forall_impl; [exact H|].
  intros d. apply isInvalidValueAt_selector.
Qed.

(** A visit of a candidate assignment first appends. *)
Lemma visitPropertyAssignment_unfold (s e : Z) (name initializer : Node)
    (original : list Diagnostic) :
  let node := PropertyAssignment s e name initializer in
  TokenProperty_safeParse Tokenami (stringLiteralText name) = true ->
  visitNode Tokenami config sourceFile node original
  = let original := original ++ appendedAt Tokenami config sourceFile node in
    let invalidValueIndex :=
      Js.findIndex (isInvalidValueAt node) original in
    if invalidValueIndex >? -1 then
      match original !! Z.to_nat invalidValueIndex with
      | Some diagnostic =>
          <[Z.to_nat invalidValueIndex :=
              with_messageText diagnostic
                (invalidValueMessage Tokenami (stringLiteralText name)
                   (stringLiteralText initializer))]> original
      | None => original
      end
    else original.
Proof.
  intros node Hparse. unfold visitNode, node, visitPropertyAssignment.
  unfold appendedAt, selectorDiagnosticAt. rewrite Hparse.
  destruct (getTokenPropertyParts _ _ _); [|reflexivity].
  rewrite app_nil_r. reflexivity.
Qed.

(** No diagnostic of the list matches: the visit only appends. *)
Lemma visitNode_miss (s e : Z) (name initializer : Node)
    (original : list Diagnostic) :
  let node := PropertyAssignment s e name initializer in
  TokenProperty_safeParse Tokenami (stringLiteralText name) = true ->
  Forall (fun d => isInvalidValueAt node d = false) original ->
  visitNode Tokenami config sourceFile node original
  = original ++ appendedAt Tokenami config sourceFile node.
Proof.
  intros node Hparse Hmiss. subst node.
  rewrite (visitPropertyAssignment_unfold s e name initializer original
             Hparse).
  cbv zeta.
  rewrite findIndex_app_none
    by apply selector_never_matches, appendedAt_code.
  rewrite (findIndex_none _ _ Hmiss). reflexivity.
Qed.

(** The first matching diagnostic gets the new message; the rest of
    the list stays, and the visit appends after it. *)
Lemma visitNode_hit (s e : Z) (name initializer : Node)
    (before : list Diagnostic) (d : Diagnostic)
    (after : list Diagnostic) :
  let node := PropertyAssignment s e name initializer in
  TokenProperty_safeParse Tokenami (stringLiteralText name) = true ->
  Forall (fun d => isInvalidValueAt node d = false) before ->
  isInvalidValueAt node d = true ->
  visitNode Tokenami config sourceFile node (before ++ d :: after)
  = before
    ++ with_messageText d
         (invalidValueMessage Tokenami (stringLiteralText name)
            (stringLiteralText initializer))
    :: after ++ appendedAt Tokenami config sourceFile node.
Proof.
  intros node Hparse Hbefore Hd. subst node.
  rewrite (visitPropertyAssignment_unfold s e name initializer _ Hparse).
  cbv zeta.
  rewrite findIndex_app_none
    by apply selector_never_matches, appendedAt_code.
  rewrite (findIndex_first _ _ _ _ Hbefore Hd).
  destruct (Z.gtb_spec (Z.of_nat (length before)) (-1)) as [_|]; [|lia].
  rewrite Nat2Z.id, <- app_assoc. simpl.
  rewrite list_lookup_middle by reflexivity.
  rewrite <- (Nat.add_0_r (length before)), insert_app_r. reflexivity.
Qed.

Lemma sameButMessage_refl (d : Diagnostic) : sameButMessage d d.
Proof. repeat split. Qed.

Lemma sameButMessage_trans (d1 d2 d3 : Diagnostic) :
  sameButMessage d1 d2 -> sameButMessage d2 d3 -> sameButMessage d1 d3.
Proof.
  unfold sameButMessage. intros (? & ? & ? & ? & ?) (? & ? & ? & ? & ?).
  repeat split; congruence.
Qed.

Lemma sameButMessage_with (d : Diagnostic) (messageText : string) :
  sameButMessage d (with_messageText d messageText).
Proof. repeat split. Qed.

Lemma sameButMessage_list_refl (l : list Diagnostic) :
  Forall2 sameButMessage l l.
Proof.
  apply Forall_Forall2_diag, Forall_forall. intros d _.
  apply sameButMessage_refl.
Qed.

Lemma first_match_or_none {A} (p : A -> bool) (l : list A) :
  Forall (fun x => p x = false) l
  \/ exists before d after,
       l = before ++ d :: after
       /\ Forall (fun x => p x = false) before /\ p d = true.
Proof.
  induction l as [|x l [IH|(b & d & a & -> & Hb & Hd)]].
  - left. constructor.
  - destruct (p x) eqn:Hx.
    + right. exists [], x, l. repeat split; auto.
    + left. constructor; assumption.
  - destruct (p x) eqn:Hx.
    + right. exists [], x, (b ++ d :: a). repeat split; auto.
    + right. exists (x :: b), d, a. repeat split; auto.
Qed.

(** The list handled by the traversal keeps its shape: the host's
    diagnostics, message apart, then what was appended so far. *)
Lemma visitNode_shape (node : Node) (hostPart appended : list Diagnostic) :
  Forall (fun d => d_code d = INVALID_SELECTOR_ERROR_CODE) appended ->
  exists hostPart',
    visitNode Tokenami config sourceFile node (hostPart ++ appended)
    = hostPart' ++ appended ++ appendedAt Tokenami config sourceFile node
    /\ Forall2 sameButMessage hostPart hostPart'.
Proof.
  intros Happended.
  assert (Hskip : appendedAt Tokenami config sourceFile node = [] ->
            visitNode Tokenami config sourceFile node
              (hostPart ++ appended) = hostPart ++ appended ->
            exists hostPart',
              visitNode Tokenami config sourceFile node
                (hostPart ++ appended)
              = hostPart' ++ appended ++ appendedAt Tokenami config sourceFile node
              /\ Forall2 sameButMessage hostPart hostPart').
  { intros -> ->. exists hostPart. rewrite app_nil_r.
    split; [reflexivity|apply sameButMessage_list_refl]. }
  destruct node as [s e t | s e name initializer | s e children];
    try (apply Hskip; reflexivity).
  destruct (TokenProperty_safeParse Tokenami (stringLiteralText name))
    eqn:Hparse.
  2:{ apply Hskip.
      - unfold appendedAt, selectorDiagnosticAt. rewrite Hparse.
        reflexivity.
      - unfold visitNode, visitPropertyAssignment. rewrite Hparse.
        reflexivity. }
  clear Hskip.
  destruct (first_match_or_none
              (isInvalidValueAt (PropertyAssignment s e name initializer))
              hostPart)
    as [Hmiss|(before & d & after & -> & Hbefore & Hd)].
  - exists hostPart. split; [|apply sameButMessage_list_refl].
    rewrite visitNode_miss, app_assoc; [reflexivity|exact Hparse|].
    apply Forall_app_2; [exact Hmiss|].
    apply selector_never_matches, Happended.
  - replace ((before ++ d :: after) ++ appended)
      with (before ++ d :: (after ++ appended))
      by (rewrite <- app_assoc; reflexivity).
    rewrite visitNode_hit by assumption.
    eexists (before ++ _ :: after). split.
    + rewrite <- !app_assoc. reflexivity.
    + apply Forall2_app; [apply sameButMessage_list_refl|].
      constructor; [apply sameButMessage_with|].
      apply sameButMessage_list_refl.
Qed.

Lemma appendedOver_cons (node : Node) (nodes : list Node) :
  appendedOver Tokenami config sourceFile (node :: nodes) = appendedAt Tokenami config sourceFile node ++ appendedOver Tokenami config sourceFile nodes.
Proof.
  unfold appendedOver, appendedAt. simpl.
  destruct (selectorDiagnosticAt _ _ _ node); reflexivity.
Qed.

Lemma appendedOver_app (l1 l2 : list Node) :
  appendedOver Tokenami config sourceFile (l1 ++ l2) = appendedOver Tokenami config sourceFile l1 ++ appendedOver Tokenami config sourceFile l2.
Proof. apply omap_app. Qed.

Lemma keepsShape_seq (f g : list Diagnostic -> list Diagnostic)
    (l1 l2 : list Node) :
  keepsShape Tokenami config sourceFile f l1 -> keepsShape Tokenami config sourceFile g l2 ->
  keepsShape Tokenami config sourceFile (fun original => g (f original)) (l1 ++ l2).
Proof.
  intros Hf Hg hostPart appended Happended.
  destruct (Hf hostPart appended Happended) as (h1 & -> & H1).
  destruct (Hg h1 (appended ++ appendedOver Tokenami config sourceFile l1)) as (h2 & -> & H2).
  { apply Forall_app_2; [exact Happended|apply appendedOver_code]. }
  exists h2. split.
  - rewrite appendedOver_app, <- !app_assoc. reflexivity.
  - eapply Forall2_trans; [|exact H1|exact H2].
    intros x y z. apply sameButMessage_trans.
Qed.

Lemma keepsShape_visitNode (node : Node) :
  keepsShape Tokenami config sourceFile (visitNode Tokenami config sourceFile node) [node].
Proof.
  intros hostPart appended Happended.
  destruct (visitNode_shape node hostPart appended Happended)
    as (h & -> & H).
  exists h. split; [|exact H].
  rewrite appendedOver_cons. unfold appendedOver. simpl.
  rewrite app_nil_r. reflexivity.
Qed.

Lemma keepsShape_nil : keepsShape Tokenami config sourceFile (fun original => original) [].
Proof.
  intros hostPart appended _. exists hostPart.
  unfold appendedOver. simpl. rewrite app_nil_r.
  split; [reflexivity|apply sameButMessage_list_refl].
Qed.

Lemma keepsShape_children (children : list Node) :
  Forall (fun child =>
            keepsShape Tokenami config sourceFile (visit Tokenami config sourceFile child)
                       (preorder child))
         children ->
  keepsShape Tokenami config sourceFile
    (fold_left (fun acc child => visit Tokenami config sourceFile child acc)
               children)
    (flat_map preorder children).
Proof.
  induction 1 as [|child children Hchild _ IH]; [apply keepsShape_nil|].
  simpl. apply (keepsShape_seq _ _ _ _ Hchild IH).
Qed.

Lemma keepsShape_visit (node : Node) :
  keepsShape Tokenami config sourceFile
    (visit Tokenami config sourceFile node) (preorder node).
Proof.
  induction node as [node IH] using Node_children_ind.
  replace (preorder node)
    with ([node] ++ flat_map preorder (childrenOf node))
    by (destruct node; reflexivity).
  replace (visit Tokenami config sourceFile node)
    with (fun original =>
            fold_left
              (fun acc child => visit Tokenami config sourceFile child acc)
              (childrenOf node)
              (visitNode Tokenami config sourceFile node original))
    by (destruct node; reflexivity).
  apply (keepsShape_seq
           (visitNode Tokenami config sourceFile node)
           (fold_left
              (fun acc child => visit Tokenami config sourceFile child acc)
              (childrenOf node))).
  - apply keepsShape_visitNode.
  - apply keepsShape_children, IH.
Qed.
End Diagnostics.

(** C1, as the code has it: [getSemanticDiagnostics] returns the host's
    diagnostics (message apart) followed by exactly one new diagnostic
    for each visited property assignment whose name passes the
    structural predicate and does not decode, in the order of the
    visit; for such an assignment whose name is a string literal, the
    new diagnostic has category Error, the code 50000 (which is not the
    invalid-value code 2322), the message naming the property, and the
    span of the whole property assignment: it starts where the
    assignment starts and has the assignment's width. *)
Theorem selector_diagnostics_appended (info : PluginCreateInfo)
    (config : Config) (fileName : string) (sourceFile : SourceFile) :
  sourceFileOf (languageService info) fileName = Some sourceFile ->
  (exists hostPart,
      augmented_getSemanticDiagnostics Tokenami info config fileName
      = hostPart
        ++ omap (selectorDiagnosticAt Tokenami config sourceFile)
                (visited sourceFile)
      /\ Forall2 sameButMessage
           (getSemanticDiagnostics (languageService info) fileName)
           hostPart)
  /\ (forall node,
        is_Some (selectorDiagnosticAt Tokenami config sourceFile node)
        <-> exists s e name initializer,
              node = PropertyAssignment s e name initializer
              /\ TokenProperty_safeParse Tokenami (stringLiteralText name)
                 = true
              /\ getTokenPropertyParts Tokenami (stringLiteralText name)
                   config = None)
  /\ (forall s e ns ne property initializer,
        let node :=
          PropertyAssignment s e (StringLiteral ns ne property) initializer
        in
        TokenProperty_safeParse Tokenami (Some property) = true ->
        getTokenPropertyParts Tokenami (Some property) config = None ->
        selectorDiagnosticAt Tokenami config sourceFile node
        = Some {| d_file := Some sourceFile;
                  d_start := Some s;
                  d_length := Some (e - s);
                  d_messageText :=
                    MessageString
                      ("Invalid property '" +:+ property
                       +:+ "'. Selector not found in theme.");
                  d_category := Error;
                  d_code := 50000 |})
  /\ INVALID_SELECTOR_ERROR_CODE = 50000
  /\ INVALID_VALUE_ERROR_CODE = 2322.
Proof.
  intros Hfile. split; [|split; [|split; [|split; reflexivity]]].
  - unfold augmented_getSemanticDiagnostics. rewrite Hfile.
    pose proof (keepsShape_children config sourceFile
                  (childrenOf (sf_node sourceFile))) as Hshape.
    destruct (Hshape
                (proj2 (Forall_forall _ _)
                   (fun child _ => keepsShape_visit config sourceFile child))
                (getSemanticDiagnostics (languageService info) fileName)
                [] (List.Forall_nil _))
      as (hostPart & Heq & Hsame).
    rewrite app_nil_r in Heq. exists hostPart. split; assumption.
  - intros node. unfold selectorDiagnosticAt. split.
    + intros [d Hd].
      destruct node as [| s e name initializer |]; try discriminate.
      destruct (TokenProperty_safeParse _ _) eqn:Hparse;
        [|discriminate].
      destruct (getTokenPropertyParts _ _ _) eqn:Hparts;
        [discriminate|].
      exists s, e, name, initializer. auto.
    + intros (s & e & name & initializer & -> & -> & ->). eauto.
  - intros s e ns ne property initializer node Hparse Hparts.
    unfold node, selectorDiagnosticAt. simpl.
    rewrite Hparse, Hparts. reflexivity.
Qed.

(** *** The traversal, diagnostic by diagnostic *)

Lemma findIndex_ext {A} (p q : A -> bool) (l : list A) :
  (forall x, p x = q x) -> Js.findIndex p l = Js.findIndex q l.
Proof.
  intros Hpq. induction l as [|x l IH]; simpl; [reflexivity|].
  rewrite Hpq, IH. reflexivity.
Qed.

Lemma findIndex_Forall2 {A} (R : A -> A -> Prop) (p : A -> bool)
    (l l' : list A) :
  (forall x y, R x y -> p y = p x) -> Forall2 R l l' ->
  Js.findIndex p l' = Js.findIndex p l.
Proof.
  intros HR. induction 1 as [|x y l l' Hxy _ IH]; simpl; [reflexivity|].
  rewrite (HR _ _ Hxy), IH. reflexivity.
Qed.

(** The predicate of [findIndex] looks at the node's start only, and at
    the diagnostic's code and start only. *)
Lemma isInvalidValueAt_same_start (node other : Node) (d : Diagnostic) :
  getStart other = getStart node ->
  isInvalidValueAt other d = isInvalidValueAt node d.
Proof. unfold isInvalidValueAt. intros ->. reflexivity. Qed.

Lemma isInvalidValueAt_same (node : Node) (d d' : Diagnostic) :
  sameButMessage d d' -> isInvalidValueAt node d' = isInvalidValueAt node d.
Proof.
  unfold isInvalidValueAt. intros (_ & -> & _ & _ & ->). reflexivity.
Qed.

Lemma matches_same_start (node other : Node) (d : Diagnostic) :
  isInvalidValueAt node d = true -> isInvalidValueAt other d = true ->
  getStart other = getStart node.
Proof.
  intros H1 H2. apply isInvalidValueAt_iff in H1, H2.
  destruct H1 as [_ H1], H2 as [_ H2]. congruence.
Qed.

Lemma with_messageText_same (d d' : Diagnostic) (messageText : string) :
  sameButMessage d d' ->
  with_messageText d' messageText = with_messageText d messageText.
Proof.
  unfold with_messageText. intros (-> & -> & -> & -> & ->). reflexivity.
Qed.

Section FirstMatch.
Variable config : Config.
Variable sourceFile : SourceFile.

Lemma rewriteAt_miss (node : Node) (l : list Diagnostic) :
  Forall (fun x => isInvalidValueAt node x = false) l ->
  rewriteAt Tokenami node l = l.
Proof.
  intros Hmiss. unfold rewriteAt.
  destruct (isCandidate Tokenami node); [|reflexivity].
  cbv zeta. rewrite (findIndex_none _ _ Hmiss). reflexivity.
Qed.

Lemma rewriteAt_hit (node : Node) (before : list Diagnostic)
    (d : Diagnostic) (after : list Diagnostic) :
  isCandidate Tokenami node = true ->
  Forall (fun x => isInvalidValueAt node x = false) before ->
  isInvalidValueAt node d = true ->
  rewriteAt Tokenami node (before ++ d :: after)
  = before ++ with_messageText d (messageAt Tokenami node) :: after.
Proof.
  intros Hc Hb Hd. unfold rewriteAt. rewrite Hc. cbv zeta.
  rewrite (findIndex_first _ _ _ _ Hb Hd).
  destruct (Z.gtb_spec (Z.of_nat (length before)) (-1)) as [_|]; [|lia].
  rewrite Nat2Z.id, list_lookup_middle by reflexivity.
  rewrite <- (Nat.add_0_r (length before)), insert_app_r. reflexivity.
Qed.

Lemma rewriteAt_cases (node : Node) (l : list Diagnostic) :
  rewriteAt Tokenami node l = l
  \/ isCandidate Tokenami node = true
     /\ exists before d after,
          l = before ++ d :: after
          /\ Forall (fun x => isInvalidValueAt node x = false) before
          /\ isInvalidValueAt node d = true
          /\ rewriteAt Tokenami node l
             = before ++ with_messageText d (messageAt Tokenami node)
               :: after.
Proof.
  destruct (isCandidate Tokenami node) eqn:Hc.
  2:{ left. unfold rewriteAt. rewrite Hc. reflexivity. }
  destruct (first_match_or_none (isInvalidValueAt node) l)
    as [Hmiss|(before & d & after & -> & Hb & Hd)].
  - left. apply rewriteAt_miss, Hmiss.
  - right. split; [reflexivity|]. exists before, d, after.
    repeat split; try assumption. apply rewriteAt_hit; assumption.
Qed.

Lemma rewriteAt_same (node : Node) (l : list Diagnostic) :
  Forall2 sameButMessage l (rewriteAt Tokenami node l).
Proof.
  destruct (rewriteAt_cases node l)
    as [->|(_ & before & d & after & -> & _ & _ & ->)].
  - apply sameButMessage_list_refl.
  - apply Forall2_app; [apply sameButMessage_list_refl|].
    constructor; [apply sameButMessage_with|apply sameButMessage_list_refl].
Qed.

(** A visit leaves every diagnostic as it is, but the first one that
    matches the node. *)
Lemma rewriteAt_lookup (node : Node) (l : list Diagnostic) (j : nat)
    (x : Diagnostic) :
  l !! j = Some x ->
  rewriteAt Tokenami node l !! j = Some x
  \/ isCandidate Tokenami node = true
     /\ isInvalidValueAt node x = true
     /\ Js.findIndex (isInvalidValueAt node) l = Z.of_nat j
     /\ rewriteAt Tokenami node l !! j
        = Some (with_messageText x (messageAt Tokenami node)).
Proof.
  intros Hj.
  destruct (rewriteAt_cases node l)
    as [->|(Hc & before & d & after & -> & Hb & Hd & ->)];
    [left; exact Hj|].
  destruct (decide (j = length before)) as [->|Hne].
  - right. rewrite list_lookup_middle in Hj by reflexivity.
    injection Hj as <-. repeat split; try assumption.
    + apply findIndex_first; assumption.
    + apply list_lookup_middle. reflexivity.
  - left. rewrite <- Hj.
    destruct (Nat.lt_ge_cases j (length before)) as [Hlt|Hge].
    + rewrite !lookup_app_l by exact Hlt. reflexivity.
    + rewrite !lookup_app_r by exact Hge.
      destruct (j - length before)%nat eqn:E; [lia|]. reflexivity.
Qed.

Lemma rewriteAt_lookup_first (node : Node) (l : list Diagnostic) (i : nat)
    (x : Diagnostic) :
  isCandidate Tokenami node = true ->
  Js.findIndex (isInvalidValueAt node) l = Z.of_nat i ->
  l !! i = Some x ->
  rewriteAt Tokenami node l !! i
  = Some (with_messageText x (messageAt Tokenami node)).
Proof.
  intros Hc Hidx Hx. unfold rewriteAt. rewrite Hc. cbv zeta. rewrite Hidx.
  destruct (Z.gtb_spec (Z.of_nat i) (-1)) as [_|]; [|lia].
  rewrite Nat2Z.id, Hx. apply list_lookup_insert_eq.
  apply lookup_lt_Some in Hx. exact Hx.
Qed.

(** [visit]'s body on the list of the traversal: the host's part is
    rewritten, and the new diagnostic goes to the end. *)
Lemma visitNode_rewriteAt (node : Node)
    (hostPart appended : list Diagnostic) :
  Forall (fun d => d_code d = INVALID_SELECTOR_ERROR_CODE) appended ->
  visitNode Tokenami config sourceFile node (hostPart ++ appended)
  = rewriteAt Tokenami node hostPart ++ appended
    ++ appendedAt Tokenami config sourceFile node.
Proof.
  intros Happended.
  destruct node as [s e t | s e name initializer | s e children];
    try (unfold rewriteAt, appendedAt; simpl; rewrite app_nil_r;
         reflexivity).
  destruct (TokenProperty_safeParse Tokenami (stringLiteralText name))
    eqn:Hparse.
  2:{ unfold rewriteAt, appendedAt, selectorDiagnosticAt, visitNode,
        visitPropertyAssignment. simpl. rewrite Hparse, app_nil_r.
      reflexivity. }
  destruct (first_match_or_none
              (isInvalidValueAt (PropertyAssignment s e name initializer))
              hostPart)
    as [Hmiss|(before & d & after & -> & Hbefore & Hd)].
  - rewrite (visitNode_miss config sourceFile), (rewriteAt_miss _ _ Hmiss),
      app_assoc; [reflexivity|exact Hparse|].
    apply Forall_app_2; [exact Hmiss|].
    apply selector_never_matches, Happended.
  - replace ((before ++ d :: after) ++ appended)
      with (before ++ d :: (after ++ appended))
      by (rewrite <- app_assoc; reflexivity).
    rewrite (visitNode_hit config sourceFile) by assumption.
    rewrite rewriteAt_hit by assumption.
    rewrite <- !app_assoc. reflexivity.
Qed.

Lemma rewriteAll_app (l1 l2 : list Node) (hostPart : list Diagnostic) :
  rewriteAll Tokenami (l1 ++ l2) hostPart
  = rewriteAll Tokenami l2 (rewriteAll Tokenami l1 hostPart).
Proof. apply fold_left_app. Qed.

Lemma rewritesHost_seq (f g : list Diagnostic -> list Diagnostic)
    (l1 l2 : list Node) :
  rewritesHost Tokenami config sourceFile f l1 ->
  rewritesHost Tokenami config sourceFile g l2 ->
  rewritesHost Tokenami config sourceFile
    (fun original => g (f original)) (l1 ++ l2).
Proof.
  intros Hf Hg hostPart appended Happended.
  rewrite (Hf hostPart appended Happended).
  rewrite (Hg (rewriteAll Tokenami l1 hostPart)
             (appended ++ appendedOver Tokenami config sourceFile l1)).
  - rewrite rewriteAll_app, appendedOver_app, <- !app_assoc. reflexivity.
  - apply Forall_app_2; [exact Happended|apply appendedOver_code].
Qed.

Lemma rewritesHost_visitNode (node : Node) :
  rewritesHost Tokenami config sourceFile
    (visitNode Tokenami config sourceFile node) [node].
Proof.
  intros hostPart appended Happended.
  rewrite (visitNode_rewriteAt node hostPart appended Happended).
  rewrite appendedOver_cons. unfold appendedOver. simpl.
  rewrite app_nil_r. reflexivity.
Qed.

Lemma rewritesHost_nil :
  rewritesHost Tokenami config sourceFile (fun original => original) [].
Proof.
  intros hostPart appended _. unfold appendedOver. simpl.
  rewrite app_nil_r. reflexivity.
Qed.

Lemma rewritesHost_children (children : list Node) :
  Forall (fun child =>
            rewritesHost Tokenami config sourceFile
              (visit Tokenami config sourceFile child) (preorder child))
         children ->
  rewritesHost Tokenami config sourceFile
    (fold_left (fun acc child => visit Tokenami config sourceFile child acc)
               children)
    (flat_map preorder children).
Proof.
  induction 1 as [|child children Hchild _ IH]; [apply rewritesHost_nil|].
  simpl. apply (rewritesHost_seq _ _ _ _ Hchild IH).
Qed.

Lemma rewritesHost_visit (node : Node) :
  rewritesHost Tokenami config sourceFile
    (visit Tokenami config sourceFile node) (preorder node).
Proof.
  induction node as [node IH] using Node_children_ind.
  replace (preorder node)
    with ([node] ++ flat_map preorder (childrenOf node))
    by (destruct node; reflexivity).
  replace (visit Tokenami config sourceFile node)
    with (fun original =>
            fold_left
              (fun acc child => visit Tokenami config sourceFile child acc)
              (childrenOf node)
              (visitNode Tokenami config sourceFile node original))
    by (destruct node; reflexivity).
  apply (rewritesHost_seq
           (visitNode Tokenami config sourceFile node)
           (fold_left
              (fun acc child => visit Tokenami config sourceFile child acc)
              (childrenOf node))).
  - apply rewritesHost_visitNode.
  - apply rewritesHost_children, IH.
Qed.

(** The whole traversal of [getSemanticDiagnostics]: the host's list
    rewritten node by node in the order of the visit, then the new
    diagnostics. *)
Lemma traversal_rewrites (original : list Diagnostic) :
  fold_left (fun acc child => visit Tokenami config sourceFile child acc)
            (childrenOf (sf_node sourceFile)) original
  = rewriteAll Tokenami (visited sourceFile) original
    ++ appendedOver Tokenami config sourceFile (visited sourceFile).
Proof.
  pose proof (rewritesHost_children (childrenOf (sf_node sourceFile))
                (proj2 (Forall_forall _ _)
                   (fun child _ => rewritesHost_visit child))
                original [] (List.Forall_nil _)) as Heq.
  rewrite app_nil_r in Heq. exact Heq.
Qed.

(** The first diagnostic of the host's list that matches [node], and
    the later ones that match it. *)
Section Tracked.
Variable node : Node.
Variable before : list Diagnostic.
Variable d : Diagnostic.
Variable after : list Diagnostic.
Hypothesis Hbefore : Forall (fun x => isInvalidValueAt node x = false) before.
Hypothesis Hd : isInvalidValueAt node d = true.

(** Whatever was rewritten so far, a node that starts where [node]
    starts finds its match at the same index. *)
Lemma first_index_stays (other : Node) (l : list Diagnostic) :
  Forall2 sameButMessage (before ++ d :: after) l ->
  getStart other = getStart node ->
  Js.findIndex (isInvalidValueAt other) l = Z.of_nat (length before).
Proof.
  intros Hsame Hstart.
  rewrite (findIndex_ext _ (isInvalidValueAt node))
    by (intros y; apply isInvalidValueAt_same_start, Hstart).
  rewrite (findIndex_Forall2 sameButMessage _ _ _
             (isInvalidValueAt_same node) Hsame).
  apply findIndex_first; assumption.
Qed.

Lemma rewriteAt_later_kept (other : Node) (l : list Diagnostic) :
  Forall2 sameButMessage (before ++ d :: after) l ->
  laterKept node before d after l ->
  laterKept node before d after (rewriteAt Tokenami other l).
Proof.
  intros Hsame Hkept j x Hj Hx Hne.
  destruct (rewriteAt_lookup other l j x (Hkept j x Hj Hx Hne))
    as [H|(_ & Hox & Hidx & _)]; [exact H|].
  exfalso. apply Hne.
  rewrite (first_index_stays other l Hsame
             (matches_same_start node other x Hx Hox)) in Hidx.
  lia.
Qed.

Lemma rewriteAll_later_kept (nodes : list Node) (l : list Diagnostic) :
  Forall2 sameButMessage (before ++ d :: after) l ->
  laterKept node before d after l ->
  Forall2 sameButMessage (before ++ d :: after) (rewriteAll Tokenami nodes l)
  /\ laterKept node before d after (rewriteAll Tokenami nodes l).
Proof.
  revert l. induction nodes as [|other nodes IH]; intros l Hsame Hkept;
    [split; assumption|].
  simpl. apply IH.
  - eapply Forall2_trans; [|exact Hsame|apply rewriteAt_same].
    intros x y z. apply sameButMessage_trans.
  - apply rewriteAt_later_kept; assumption.
Qed.

(** Once [node] has written its message, no later visit changes it,
    when the candidates that start where [node] starts write the same
    message. *)
Lemma rewriteAll_message_kept (nodes : list Node) (l : list Diagnostic) :
  Forall (fun other =>
            isCandidate Tokenami other = true ->
            getStart other = getStart node ->
            messageAt Tokenami other = messageAt Tokenami node) nodes ->
  Forall2 sameButMessage (before ++ d :: after) l ->
  l !! length before = Some (with_messageText d (messageAt Tokenami node)) ->
  rewriteAll Tokenami nodes l !! length before
  = Some (with_messageText d (messageAt Tokenami node)).
Proof.
  revert l. induction nodes as [|other nodes IH]; intros l Hsole Hsame Hl;
    [exact Hl|].
  apply Forall_cons in Hsole as [Hother Hsole].
  simpl. apply IH; [exact Hsole| |].
  - eapply Forall2_trans; [|exact Hsame|apply rewriteAt_same].
    intros x y z. apply sameButMessage_trans.
  - destruct (rewriteAt_lookup other l _ _ Hl)
      as [H|(Hc & Hox & _ & ->)]; [exact H|].
    rewrite (Hother Hc); [reflexivity|].
    apply (matches_same_start node other
             (with_messageText d (messageAt Tokenami node))); [|exact Hox].
    rewrite (isInvalidValueAt_same node d); [exact Hd|].
    apply sameButMessage_with.
Qed.

Lemma rewriteAll_first_match (nodes : list Node) :
  In node nodes ->
  isCandidate Tokenami node = true ->
  Forall (fun other =>
            isCandidate Tokenami other = true ->
            getStart other = getStart node ->
            messageAt Tokenami other = messageAt Tokenami node) nodes ->
  let l := rewriteAll Tokenami nodes (before ++ d :: after) in
  Forall2 sameButMessage (before ++ d :: after) l
  /\ l !! length before
     = Some (with_messageText d (messageAt Tokenami node))
  /\ laterKept node before d after l.
Proof.
  intros Hin Hc Hsole l.
  assert (Hstart : laterKept node before d after (before ++ d :: after))
    by (intros j x Hj _ _; exact Hj).
  destruct (rewriteAll_later_kept nodes _
              (sameButMessage_list_refl _) Hstart) as [Hsame Hkept].
  split; [exact Hsame|]. split; [|exact Hkept].
  apply in_split in Hin as (earlier & later & ->).
  apply Forall_app in Hsole as [_ Hsole].
  apply Forall_cons in Hsole as [_ Hsole].
  unfold l. rewrite rewriteAll_app. simpl.
  destruct (rewriteAll_later_kept earlier _
              (sameButMessage_list_refl _) Hstart) as [Hearlier _].
  destruct (Forall2_lookup_l _ _ _ (length before) d Hearlier)
    as (d1 & Hd1 & Hsame1); [apply list_lookup_middle; reflexivity|].
  apply rewriteAll_message_kept; [exact Hsole| |].
  - eapply Forall2_trans; [|exact Hearlier|apply rewriteAt_same].
    intros x y z. apply sameButMessage_trans.
  - rewrite (rewriteAt_lookup_first node _ _ d1 Hc
               (first_index_stays node _ Hearlier eq_refl) Hd1).
    rewrite (with_messageText_same d d1 _ Hsame1). reflexivity.
Qed.
End Tracked.

(** [getSemanticDiagnostics] at the first diagnostic of the host that
    matches a visited candidate assignment, at the later ones that match
    it, and at the earlier ones. *)
Lemma first_match_in_result (info : PluginCreateInfo) (fileName : string)
    (s e : Z) (name initializer : Node)
    (before : list Diagnostic) (d : Diagnostic)
    (after : list Diagnostic) :
  let node := PropertyAssignment s e name initializer in
  let result :=
    augmented_getSemanticDiagnostics Tokenami info config fileName in
  sourceFileOf (languageService info) fileName = Some sourceFile ->
  getSemanticDiagnostics (languageService info) fileName
  = before ++ d :: after ->
  In node (visited sourceFile) ->
  TokenProperty_safeParse Tokenami (stringLiteralText name) = true ->
  Forall (fun other =>
            isCandidate Tokenami other = true -> getStart other = s ->
            other = node) (visited sourceFile) ->
  d_code d = INVALID_VALUE_ERROR_CODE ->
  d_start d = Some (getStart node) ->
  Forall (fun d' => ~ (d_code d' = INVALID_VALUE_ERROR_CODE
                       /\ d_start d' = Some (getStart node))) before ->
  result !! length before
  = Some (with_messageText d
            (invalidValueMessage Tokenami (stringLiteralText name)
               (stringLiteralText initializer)))
  /\ (forall j later,
        after !! j = Some later ->
        d_code later = INVALID_VALUE_ERROR_CODE ->
        d_start later = Some (getStart node) ->
        result !! (length before + 1 + j)%nat = Some later)
  /\ (forall j earlier,
        before !! j = Some earlier ->
        exists earlier',
          result !! j = Some earlier' /\ sameButMessage earlier earlier').
Proof.
  intros node result Hfile Hhost Hin Hparse Hsole Hcode Hstart Hbefore.
  assert (Hd : isInvalidValueAt node d = true)
    by (apply isInvalidValueAt_iff; split; assumption).
  apply none_matches_before in Hbefore.
  destruct (rewriteAll_first_match node before d after Hbefore Hd
              (visited sourceFile) Hin Hparse)
    as (Hsame & Hfirst & Hkept).
  { apply (Forall_impl _ _ _ Hsole). intros other Hother Hc Ho.
    rewrite (Hother Hc Ho). reflexivity. }
  assert (Hresult : result
            = rewriteAll Tokenami (visited sourceFile) (before ++ d :: after)
              ++ appendedOver Tokenami config sourceFile
                   (visited sourceFile)).
  { unfold result, augmented_getSemanticDiagnostics.
    rewrite Hfile, Hhost. apply traversal_rewrites. }
  pose proof (Forall2_length _ _ _ Hsame) as Hlength.
  rewrite length_app in Hlength. simpl in Hlength.
  rewrite Hresult. split; [|split].
  - rewrite lookup_app_l by lia. exact Hfirst.
  - intros j later Hj Hc Hs.
    pose proof (lookup_lt_Some _ _ _ Hj) as Hlt.
    rewrite lookup_app_l by lia. apply Hkept; [| |lia].
    + rewrite lookup_app_r by lia.
      replace (length before + 1 + j - length before)%nat with (S j) by lia.
      exact Hj.
    + apply isInvalidValueAt_iff. split; assumption.
  - intros j earlier Hj.
    pose proof (lookup_lt_Some _ _ _ Hj) as Hlt.
    rewrite lookup_app_l by lia.
    apply (Forall2_lookup_l _ _ _ j earlier Hsame).
    rewrite lookup_app_l by exact Hlt. exact Hj.
Qed.
End FirstMatch.

(** C6, as the code has it: for a candidate token-property assignment
    that [getSemanticDiagnostics] visits, the list it returns has, in
    the place of the first diagnostic of the host's list whose code is
    the invalid-value code and whose start is the node's start, that
    diagnostic with a new message and every other field unchanged.  The
    new message names the value and the [arbitraryValue] suggestion when
    the value side is a non-empty string literal, and is the grid-values
    message naming the property otherwise.  Only the first is replaced:
    every later diagnostic of the host with that code and that start is
    returned as the host gave it, and every earlier one keeps its place,
    message apart.  The visited assignment is the only candidate that
    starts at its offset, as in a tree of the host, where an assignment
    starts with its own name. *)
Theorem invalid_value_message_rewritten (info : PluginCreateInfo)
    (config : Config) (fileName : string) (sourceFile : SourceFile)
    (s e : Z) (name initializer : Node)
    (before : list Diagnostic) (d : Diagnostic)
    (after : list Diagnostic) :
  let node := PropertyAssignment s e name initializer in
  let property := show_property (stringLiteralText name) in
  let result :=
    augmented_getSemanticDiagnostics Tokenami info config fileName in
  sourceFileOf (languageService info) fileName = Some sourceFile ->
  getSemanticDiagnostics (languageService info) fileName
  = before ++ d :: after ->
  In node (visited sourceFile) ->
  TokenProperty_safeParse Tokenami (stringLiteralText name) = true ->
  Forall (fun other =>
            isCandidate Tokenami other = true -> getStart other = s ->
            other = node) (visited sourceFile) ->
  d_code d = INVALID_VALUE_ERROR_CODE ->
  d_start d = Some (getStart node) ->
  Forall (fun d' => ~ (d_code d' = INVALID_VALUE_ERROR_CODE
                       /\ d_start d' = Some (getStart node))) before ->
  exists d',
    result !! length before = Some d'
    /\ sameButMessage d d'
    /\ (forall vs ve value,
          initializer = StringLiteral vs ve value ->
          value <> EmptyString ->
          d_messageText d'
          = MessageString
              ("Value '" +:+ value +:+ "' is not assignable to '"
               +:+ property
               +:+ "'. Use theme value or mark arbitrary with '"
               +:+ arbitraryValue Tokenami value +:+ "'"))
    /\ (stringLiteralText initializer = None
        \/ stringLiteralText initializer = Some EmptyString ->
        d_messageText d'
        = MessageString
            ("Grid values are not assignable to '" +:+ property +:+ "'."))
    /\ (forall j later,
          after !! j = Some later ->
          d_code later = INVALID_VALUE_ERROR_CODE ->
          d_start later = Some (getStart node) ->
          result !! (length before + 1 + j)%nat = Some later)
    /\ (forall j earlier,
          before !! j = Some earlier ->
          exists earlier',
            result !! j = Some earlier' /\ sameButMessage earlier earlier').
Proof.
  intros node property result Hfile Hhost Hin Hparse Hsole Hcode Hstart
    Hbefore.
  destruct (first_match_in_result config sourceFile info fileName s e name
              initializer before d after Hfile Hhost Hin Hparse Hsole Hcode
              Hstart Hbefore) as (Hfirst & Hlater & Hearlier).
  exists (with_messageText d
            (invalidValueMessage Tokenami (stringLiteralText name)
               (stringLiteralText initializer))).
  split; [exact Hfirst|]. split; [apply sameButMessage_with|].
  split; [|split; [|split; [exact Hlater|exact Hearlier]]].
  - intros vs ve value -> Hne. simpl. unfold invalidValueMessage.
    apply truthy_string_true in Hne. rewrite Hne. reflexivity.
  - intros [Hnone|Hempty]; simpl; unfold invalidValueMessage.
    + rewrite Hnone. reflexivity.
    + rewrite Hempty. reflexivity.
Qed.


(** *** What the traversal leaves of the host's diagnostics *)

Section HostDiagnostics.
Variable config : Config.
Variable sourceFile : SourceFile.

Lemma keptOrRewritten_refl (nodes : list Node) (d : Diagnostic) :
  keptOrRewritten Tokenami nodes d d.
Proof. left. reflexivity. Qed.

Lemma keptOrRewritten_list_refl (nodes : list Node) (l : list Diagnostic) :
  Forall2 (keptOrRewritten Tokenami nodes) l l.
Proof.
  apply Forall_Forall2_diag, Forall_forall. intros d _.
  apply keptOrRewritten_refl.
Qed.

(** A second rewriting replaces the message of the first. *)
Lemma keptOrRewritten_trans (l1 l2 : list Node) (x y z : Diagnostic) :
  keptOrRewritten Tokenami l1 x y -> keptOrRewritten Tokenami l2 y z ->
  keptOrRewritten Tokenami (l1 ++ l2) x z.
Proof.
  intros [->|(n1 & Hin1 & H1)] [->|(n2 & Hin2 & H2)].
  - left. reflexivity.
  - right. exists n2. split; [apply in_or_app; right; exact Hin2|exact H2].
  - right. exists n1. split; [apply in_or_app; left; exact Hin1|exact H1].
  - right. exists n2. split; [apply in_or_app; right; exact Hin2|].
    destruct H1 as (s1 & e1 & name1 & init1 & _ & _ & _ & _ & ->).
    destruct H2 as (s2 & e2 & name2 & init2 & -> & Hparse & Hcode & Hstart
                    & ->).
    exists s2, e2, name2, init2. repeat split; assumption.
Qed.

Lemma visitNode_tracks (node : Node) :
  tracksHost Tokenami config sourceFile
    (visitNode Tokenami config sourceFile node) [node].
Proof.
  intros hostPart appended Happended.
  replace (appendedOver Tokenami config sourceFile [node])
    with (appendedAt Tokenami config sourceFile node)
    by (rewrite appendedOver_cons; unfold appendedOver; simpl;
        rewrite app_nil_r; reflexivity).
  assert (Hskip : appendedAt Tokenami config sourceFile node = [] ->
            visitNode Tokenami config sourceFile node (hostPart ++ appended)
            = hostPart ++ appended ->
            exists hostPart',
              visitNode Tokenami config sourceFile node
                (hostPart ++ appended)
              = hostPart' ++ appended
                ++ appendedAt Tokenami config sourceFile node
              /\ Forall2 (keptOrRewritten Tokenami [node]) hostPart hostPart').
  { intros -> ->. exists hostPart. rewrite app_nil_r.
    split; [reflexivity|apply keptOrRewritten_list_refl]. }
  destruct node as [s e t | s e name initializer | s e children];
    try (apply Hskip; reflexivity).
  destruct (TokenProperty_safeParse Tokenami (stringLiteralText name))
    eqn:Hparse.
  2:{ apply Hskip.
      - unfold appendedAt, selectorDiagnosticAt. rewrite Hparse.
        reflexivity.
      - unfold visitNode, visitPropertyAssignment. rewrite Hparse.
        reflexivity. }
  clear Hskip.
  destruct (first_match_or_none
              (isInvalidValueAt (PropertyAssignment s e name initializer))
              hostPart)
    as [Hmiss|(before & d & after & -> & Hbefore & Hd)].
  - exists hostPart. split; [|apply keptOrRewritten_list_refl].
    rewrite visitNode_miss, app_assoc; [reflexivity|exact Hparse|].
    apply Forall_app_2; [exact Hmiss|].
    apply selector_never_matches, Happended.
  - replace ((before ++ d :: after) ++ appended)
      with (before ++ d :: (after ++ appended))
      by (rewrite <- app_assoc; reflexivity).
    rewrite visitNode_hit by assumption.
    eexists (before ++ _ :: after). split.
    + rewrite <- !app_assoc. reflexivity.
    + apply Forall2_app; [apply keptOrRewritten_list_refl|].
      constructor; [|apply keptOrRewritten_list_refl].
      right. eexists. split; [left; reflexivity|].
      apply isInvalidValueAt_iff in Hd as [Hcode Hstart].
      exists s, e, name, initializer. repeat split; assumption.
Qed.

Lemma tracksHost_seq (f g : list Diagnostic -> list Diagnostic)
    (l1 l2 : list Node) :
  tracksHost Tokenami config sourceFile f l1 ->
  tracksHost Tokenami config sourceFile g l2 ->
  tracksHost Tokenami config sourceFile (fun original => g (f original))
    (l1 ++ l2).
Proof.
  intros Hf Hg hostPart appended Happended.
  destruct (Hf hostPart appended Happended) as (h1 & -> & H1).
  destruct (Hg h1 (appended ++ appendedOver Tokenami config sourceFile l1))
    as (h2 & -> & H2).
  { apply Forall_app_2; [exact Happended|apply appendedOver_code]. }
  exists h2. split.
  - rewrite appendedOver_app, <- !app_assoc. reflexivity.
  - eapply Forall2_trans; [|exact H1|exact H2].
    intros x y z. apply keptOrRewritten_trans.
Qed.

Lemma tracksHost_nil :
  tracksHost Tokenami config sourceFile (fun original => original) [].
Proof.
  intros hostPart appended _. exists hostPart.
  unfold appendedOver. simpl. rewrite app_nil_r.
  split; [reflexivity|apply keptOrRewritten_list_refl].
Qed.

Lemma tracksHost_children (children : list Node) :
  Forall (fun child =>
            tracksHost Tokenami config sourceFile
              (visit Tokenami config sourceFile child) (preorder child))
         children ->
  tracksHost Tokenami config sourceFile
    (fold_left (fun acc child => visit Tokenami config sourceFile child acc)
               children)
    (flat_map preorder children).
Proof.
  induction 1 as [|child children Hchild _ IH]; [apply tracksHost_nil|].
  simpl. apply (tracksHost_seq _ _ _ _ Hchild IH).
Qed.

Lemma tracksHost_visit (node : Node) :
  tracksHost Tokenami config sourceFile
    (visit Tokenami config sourceFile node) (preorder node).
Proof.
  induction node as [node IH] using Node_children_ind.
  replace (preorder node)
    with ([node] ++ flat_map preorder (childrenOf node))
    by (destruct node; reflexivity).
  replace (visit Tokenami config sourceFile node)
    with (fun original =>
            fold_left
              (fun acc child => visit Tokenami config sourceFile child acc)
              (childrenOf node)
              (visitNode Tokenami config sourceFile node original))
    by (destruct node; reflexivity).
  apply (tracksHost_seq
           (visitNode Tokenami config sourceFile node)
           (fold_left
              (fun acc child => visit Tokenami config sourceFile child acc)
              (childrenOf node))).
  - apply visitNode_tracks.
  - apply tracksHost_children, IH.
Qed.

(** The whole traversal of a file, from the host's list. *)
Lemma traversal_tracks (original : list Diagnostic) :
  exists hostPart,
    fold_left (fun acc child => visit Tokenami config sourceFile child acc)
              (childrenOf (sf_node sourceFile)) original
    = hostPart ++ appendedOver Tokenami config sourceFile (visited sourceFile)
    /\ Forall2 (keptOrRewritten Tokenami (visited sourceFile))
         original hostPart.
Proof.
  destruct (tracksHost_children (childrenOf (sf_node sourceFile))
              (proj2 (Forall_forall _ _)
                 (fun child _ => tracksHost_visit child))
              original [] (List.Forall_nil _))
    as (hostPart & Heq & Htracked).
  rewrite app_nil_r in Heq. exists hostPart. split; [|exact Htracked].
  rewrite Heq. reflexivity.
Qed.

Lemma appendedOver_no_candidate (nodes : list Node) :
  Forall (fun node => isCandidate Tokenami node = false) nodes ->
  appendedOver Tokenami config sourceFile nodes = [].
Proof.
  induction 1 as [|node nodes Hnode _ IH]; [reflexivity|].
  rewrite appendedOver_cons, IH, app_nil_r.
  unfold appendedAt, selectorDiagnosticAt.
  destruct node as [| s e name initializer |]; try reflexivity.
  simpl in Hnode. rewrite Hnode. reflexivity.
Qed.

Lemma kept_without_candidate (nodes : list Node) (l l' : list Diagnostic) :
  Forall (fun node => isCandidate Tokenami node = false) nodes ->
  Forall2 (keptOrRewritten Tokenami nodes) l l' -> l' = l.
Proof.
  intros Hnone Hkept. induction Hkept as [|d d' l l' Hd _ IH];
    [reflexivity|].
  rewrite IH. f_equal. destruct Hd as [->|(node & Hin & Hre)];
    [reflexivity|].
  rewrite Forall_forall in Hnone.
  specialize (Hnone node (proj2 (list_elem_of_In _ _) Hin)).
  destruct Hre as (s & e & name & initializer & -> & Hparse & _).
  simpl in Hnone. congruence.
Qed.
End HostDiagnostics.

(** X4: [getSemanticDiagnostics] returns every diagnostic of the host at
    the index it had, with every field but the message as it was; the
    diagnostic itself is as it was unless its code is the invalid-value
    code and it starts where a visited property assignment whose name
    passes the structural predicate starts, in which case its message
    may be the message written for such an assignment. *)
Theorem host_diagnostics_kept_or_rewritten (info : PluginCreateInfo)
    (config : Config) (fileName : string) (sourceFile : SourceFile)
    (i : nat) (d : Diagnostic) :
  sourceFileOf (languageService info) fileName = Some sourceFile ->
  getSemanticDiagnostics (languageService info) fileName !! i = Some d ->
  exists d',
    augmented_getSemanticDiagnostics Tokenami info config fileName !! i
    = Some d'
    /\ sameButMessage d d'
    /\ (d' = d
        \/ exists s e name initializer,
             In (PropertyAssignment s e name initializer)
                (visited sourceFile)
             /\ TokenProperty_safeParse Tokenami (stringLiteralText name)
                = true
             /\ d_code d = INVALID_VALUE_ERROR_CODE
             /\ d_start d = Some s
             /\ d_messageText d'
                = MessageString
                    (invalidValueMessage Tokenami (stringLiteralText name)
                       (stringLiteralText initializer)))
    /\ (d_code d <> INVALID_VALUE_ERROR_CODE -> d' = d)
    /\ (Forall (fun node =>
                  isCandidate Tokenami node = true ->
                  d_start d <> Some (getStart node))
               (visited sourceFile) -> d' = d).
Proof.
  intros Hfile Hd. unfold augmented_getSemanticDiagnostics. rewrite Hfile.
  destruct (traversal_tracks config sourceFile
              (getSemanticDiagnostics (languageService info) fileName))
    as (hostPart & -> & Htracked).
  destruct (Forall2_lookup_l _ _ _ _ _ Htracked Hd) as (d' & Hd' & Hrel).
  exists d'. split.
  { rewrite lookup_app_l; [exact Hd'|]. eapply lookup_lt_Some, Hd'. }
  destruct Hrel as [->|(node & Hin & Hre)].
  { split; [apply sameButMessage_refl|]. split; [left; reflexivity|].
    split; reflexivity. }
  destruct Hre as (s & e & name & initializer & -> & Hparse & Hcode & Hstart
                   & ->).
  split; [apply sameButMessage_with|]. split; [|split].
  - right. exists s, e, name, initializer. repeat split; assumption.
  - intros Hother. contradiction.
  - intros Hnowhere. rewrite Forall_forall in Hnowhere.
    destruct (Hnowhere _ (proj2 (list_elem_of_In _ _) Hin) Hparse Hstart).
Qed.

(** X5: [getSemanticDiagnostics] returns the host's list as it is when
    the program does not know the file, and when no property assignment
    of the file has a name that passes the structural predicate. *)
Theorem diagnostics_untouched_without_candidates (info : PluginCreateInfo)
    (config : Config) (fileName : string) :
  let original := getSemanticDiagnostics (languageService info) fileName in
  let result :=
    augmented_getSemanticDiagnostics Tokenami info config fileName in
  (sourceFileOf (languageService info) fileName = None -> result = original)
  /\ (forall sourceFile,
        sourceFileOf (languageService info) fileName = Some sourceFile ->
        Forall (fun node => isCandidate Tokenami node = false)
               (visited sourceFile) ->
        result = original).
Proof.
  cbv zeta. unfold augmented_getSemanticDiagnostics. split.
  - intros ->. reflexivity.
  - intros sourceFile -> Hnone.
    destruct (traversal_tracks config sourceFile
                (getSemanticDiagnostics (languageService info) fileName))
      as (hostPart & -> & Htracked).
    rewrite (appendedOver_no_candidate config sourceFile _ Hnone), app_nil_r.
    apply (kept_without_candidate _ _ _ Hnone Htracked).
Qed.

(** *** What the completion callback does to an entry and to the cache *)

Lemma markTokenProperty_keeps (config : Config) (entryName : string)
    (entry : CompletionEntry) :
  let entry' := markTokenProperty Tokenami config entryName entry in
  ce_name entry' = ce_name entry /\ ce_kind entry' = ce_kind entry
  /\ ce_kindModifiers entry' = ce_kindModifiers entry
  /\ ce_insertText entry' = ce_insertText entry.
Proof.
  cbv zeta. unfold markTokenProperty.
  destruct (TokenProperty_safeParse Tokenami (Some entryName));
    [|repeat split].
  destruct (responsiveDescription config _) as [d|]; [|repeat split].
  destruct (Js.truthy_string d); repeat split.
Qed.

Lemma augmentEntry_rewrite (config : Config) (entry : CompletionEntry)
    (m : TokenConfigMap) :
  let entry' := fst (augmentEntry Tokenami config entry m) in
  ce_kind entry' = ce_kind entry
  /\ match recorded Tokenami config (ce_name entry) with
     | Some (k, stored) =>
         ce_name entry' = "$" +:+ k
         /\ ce_kindModifiers entry' = Some (tce_themeKey stored)
         /\ ce_insertText entry' = Some (ce_name entry)
         /\ ce_labelDetails entry'
            = Some {| ld_detail := Some EmptyString;
                      ld_description := Some (ce_name entry) |}
     | None =>
         ce_name entry' = ce_name entry
         /\ ce_kindModifiers entry' = ce_kindModifiers entry
         /\ ce_insertText entry' = ce_insertText entry
     end.
Proof.
  cbv zeta. unfold augmentEntry.
  destruct (markTokenProperty_keeps config (ce_name entry)
              (set_sortText (ce_name entry) entry))
    as (Hname & Hkind & Hmodifiers & Hinsert).
  simpl in Hname, Hkind, Hmodifiers, Hinsert.
  unfold markTokenValue, recorded.
  destruct (TokenValue_safeParse Tokenami (ce_name entry));
    [|repeat split; assumption].
  destruct (getTokenValueParts Tokenami (ce_name entry)) as [p|];
    [|repeat split; assumption].
  destruct (themeValueOf config (Some p)) as [v|];
    [|repeat split; assumption].
  destruct (truthy_value v); repeat split; assumption.
Qed.

Lemma recorded_inv (config : Config) (entryName k : string)
    (stored : TokenConfigEntry) :
  recorded Tokenami config entryName = Some (k, stored) ->
  TokenValue_safeParse Tokenami entryName = true
  /\ exists parts tokens,
       getTokenValueParts Tokenami entryName = Some parts
       /\ token parts = k /\ themeKey parts = tce_themeKey stored
       /\ theme config !! tce_themeKey stored = Some tokens
       /\ tokens !! k = Some (tce_tokenValue stored)
       /\ truthy_value (tce_tokenValue stored) = true.
Proof.
  unfold recorded, themeValueOf.
  destruct (TokenValue_safeParse Tokenami entryName); [|discriminate].
  destruct (getTokenValueParts Tokenami entryName) as [p|]; [|discriminate].
  destruct (theme config !! themeKey p) as [tokens|] eqn:Htheme;
    [|discriminate].
  destruct (tokens !! token p) as [v|] eqn:Htoken; [|discriminate].
  destruct (truthy_value v) eqn:Htruthy; [|discriminate].
  intros [= <- <-]. split; [reflexivity|].
  exists p, tokens. repeat split; assumption.
Qed.

Lemma lastRecordedFrom_cons (config : Config) (k : string)
    (before : option TokenConfigEntry) (entry : CompletionEntry)
    (entries : list CompletionEntry) :
  lastRecordedFrom Tokenami config k before (entry :: entries)
  = lastRecordedFrom Tokenami config k
      (match recorded Tokenami config (ce_name entry) with
       | Some (k', v) => if String.eqb k' k then Some v else before
       | None => before
       end)
      entries.
Proof. reflexivity. Qed.

(** The binding of a key after the callback has run on a list. *)
Lemma recordAll_lookup (config : Config) (k : string)
    (entries : list CompletionEntry) (m : TokenConfigMap) :
  recordAll Tokenami config entries m !! k
  = lastRecordedFrom Tokenami config k (m !! k) entries.
Proof.
  revert m. induction entries as [|e entries IH]; intros m; [reflexivity|].
  rewrite recordAll_cons, lastRecordedFrom_cons, IH. f_equal.
  destruct (recorded Tokenami config (ce_name e)) as [[k' v]|];
    [|reflexivity].
  destruct (String.eqb_spec k' k) as [->|Hne].
  - apply lookup_insert_eq.
  - apply lookup_insert_ne, Hne.
Qed.

(** What was bound before only shows when no entry is recorded. *)
Lemma lastRecordedFrom_start (config : Config) (k : string)
    (entries : list CompletionEntry) (before : option TokenConfigEntry) :
  lastRecordedFrom Tokenami config k before entries
  = match lastRecordedFrom Tokenami config k None entries with
    | Some v => Some v
    | None => before
    end.
Proof.
  revert before. induction entries as [|e entries IH]; intros before;
    [reflexivity|].
  rewrite !lastRecordedFrom_cons.
  rewrite (IH (match recorded Tokenami config (ce_name e) with
               | Some (k', v) => if String.eqb k' k then Some v else before
               | None => before
               end)).
  rewrite (IH (match recorded Tokenami config (ce_name e) with
               | Some (k', v) => if String.eqb k' k then Some v else None
               | None => None
               end)).
  destruct (lastRecordedFrom Tokenami config k None entries);
    [reflexivity|].
  destruct (recorded Tokenami config (ce_name e)) as [[k' v]|];
    [|reflexivity].
  destruct (String.eqb k' k); reflexivity.
Qed.

Lemma recordAll_twice (config : Config) (entries : list CompletionEntry)
    (m : TokenConfigMap) :
  recordAll Tokenami config entries (recordAll Tokenami config entries m)
  = recordAll Tokenami config entries m.
Proof.
  apply map_eq. intros k. rewrite !recordAll_lookup.
  rewrite (lastRecordedFrom_start config k entries
             (lastRecordedFrom Tokenami config k (m !! k) entries)).
  rewrite (lastRecordedFrom_start config k entries (m !! k)).
  destruct (lastRecordedFrom Tokenami config k None entries); reflexivity.
Qed.

Lemma recordAll_holds (config : Config) (entries : list CompletionEntry)
    (m : TokenConfigMap) :
  holdsThemeValues Tokenami config m ->
  holdsThemeValues Tokenami config (recordAll Tokenami config entries m).
Proof.
  revert m. induction entries as [|e entries IH]; intros m Hm; [exact Hm|].
  rewrite recordAll_cons. apply IH.
  destruct (recorded Tokenami config (ce_name e)) as [[k v]|] eqn:Hrec;
    [|exact Hm].
  intros k' stored. rewrite lookup_insert. destruct (decide (k = k')).
  - subst k'. intros [= <-]. exists (ce_name e). exact Hrec.
  - apply Hm.
Qed.

Lemma perform_holds (info : PluginCreateInfo) (op : Operation)
    (m : TokenConfigMap) :
  let config := getConfigAtPath Tokenami (configPathOf Tokenami info) in
  holdsThemeValues Tokenami config m ->
  holdsThemeValues Tokenami config
    (perform (plugin_proxy (create Tokenami fileExists info)) op m).
Proof.
  intros config Hm. destruct (readsOnly op) eqn:Hop.
  - rewrite perform_reads_only by exact Hop. exact Hm.
  - destruct op; try discriminate. unfold create.
    fold (configPathOf Tokenami info).
    destruct (negb (fileExists _)); simpl; [exact Hm|].
    rewrite completions_cache.
    destruct (getCompletionsAtPosition _ _ _ _); [|exact Hm].
    apply recordAll_holds, Hm.
Qed.

Lemma performAll_holds (info : PluginCreateInfo) (ops : list Operation)
    (m : TokenConfigMap) :
  let config := getConfigAtPath Tokenami (configPathOf Tokenami info) in
  holdsThemeValues Tokenami config m ->
  holdsThemeValues Tokenami config
    (performAll (plugin_proxy (create Tokenami fileExists info)) ops m).
Proof.
  intros config. revert m. induction ops as [|op ops IH]; intros m Hm;
    [exact Hm|].
  unfold performAll. simpl. apply IH, perform_holds, Hm.
Qed.

Lemma performAll_reads_only (info : PluginCreateInfo) (ops : list Operation)
    (m : TokenConfigMap) :
  Forall (fun op => readsOnly op = true) ops ->
  performAll (plugin_proxy (create Tokenami fileExists info)) ops m = m.
Proof.
  intros Hops. revert m. induction Hops as [|op ops Hop _ IH]; intros m;
    [reflexivity|].
  unfold performAll. simpl. rewrite perform_reads_only by exact Hop.
  apply IH.
Qed.

Lemma shortToken_displayed (k : string) :
  lacks Js.dollar k = true -> shortToken ("$" +:+ k) = Some k.
Proof.
  intros Hk. unfold shortToken.
  change ("$" +:+ k) with (EmptyString +:+ String Js.dollar k).
  rewrite (split_app Js.dollar EmptyString k eq_refl), (split_lacks _ _ Hk).
  reflexivity.
Qed.

(** X6: [getCompletionsAtPosition] answers nothing when the host answers
    nothing, and leaves the cache alone; otherwise it returns the host's
    completion info with as many entries, in the same order, each with
    its kind.  An entry recorded as a token value is renamed to the
    dollar followed by its token, gets the theme key as kind modifier,
    inserts its original name and shows that name as label detail; any
    other entry keeps its name, kind modifiers and insert text. *)
Theorem completion_entries_rewritten (info : PluginCreateInfo)
    (config : Config) (fileName : string) (position : Z)
    (options : option GetCompletionsAtPositionOptions)
    (m : TokenConfigMap) :
  let answer :=
    augmented_getCompletionsAtPosition Tokenami info config fileName
      position options m in
  match getCompletionsAtPosition (languageService info) fileName position
          options with
  | None => answer = (None, m)
  | Some original =>
      exists augmented,
        fst answer = Some augmented
        /\ ci_isGlobalCompletion augmented = ci_isGlobalCompletion original
        /\ ci_isMemberCompletion augmented = ci_isMemberCompletion original
        /\ ci_isNewIdentifierLocation augmented
           = ci_isNewIdentifierLocation original
        /\ Forall2
             (fun entry entry' =>
                ce_kind entry' = ce_kind entry
                /\ match recorded Tokenami config (ce_name entry) with
                   | Some (k, stored) =>
                       ce_name entry' = "$" +:+ k
                       /\ ce_kindModifiers entry'
                          = Some (tce_themeKey stored)
                       /\ ce_insertText entry' = Some (ce_name entry)
                       /\ ce_labelDetails entry'
                          = Some {| ld_detail := Some EmptyString;
                                    ld_description := Some (ce_name entry) |}
                   | None =>
                       ce_name entry' = ce_name entry
                       /\ ce_kindModifiers entry' = ce_kindModifiers entry
                       /\ ce_insertText entry' = ce_insertText entry
                   end)
             (ci_entries original) (ci_entries augmented)
  end.
Proof.
  cbv zeta.
  destruct (getCompletionsAtPosition (languageService info) fileName position
              options) as [original|] eqn:Hhost.
  - eexists. split; [apply completions_entries, Hhost|].
    simpl. repeat (split; [reflexivity|]).
    apply Forall2_fmap_r, Forall_Forall2_diag, Forall_forall.
    intros entry _. apply augmentEntry_rewrite.
  - unfold augmented_getCompletionsAtPosition. rewrite Hhost. reflexivity.
Qed.

(** X7: after [getCompletionsAtPosition], a token under which no entry
    of the host's list is recorded is bound as before; a token is bound
    to the value of the last entry recorded under it; and asking again
    for the same list changes the cache no further. *)
Theorem completions_cache_overwrites (info : PluginCreateInfo)
    (config : Config) (fileName : string) (position : Z)
    (options : option GetCompletionsAtPositionOptions)
    (original : CompletionInfo) (m : TokenConfigMap) :
  getCompletionsAtPosition (languageService info) fileName position options
  = Some original ->
  let after (m : TokenConfigMap) :=
    snd (augmented_getCompletionsAtPosition Tokenami info config fileName
           position options m) in
  (forall k,
      notRecordedUnder Tokenami config k (ci_entries original) ->
      after m !! k = m !! k)
  /\ (forall earlier entry later k stored,
        ci_entries original = earlier ++ entry :: later ->
        recorded Tokenami config (ce_name entry) = Some (k, stored) ->
        notRecordedUnder Tokenami config k later ->
        after m !! k = Some stored)
  /\ after (after m) = after m.
Proof.
  intros Hhost after.
  assert (Hafter : forall m0,
             after m0 = recordAll Tokenami config (ci_entries original) m0).
  { intros m0. unfold after. rewrite completions_cache, Hhost.
    reflexivity. }
  split; [|split].
  - intros k Hk. rewrite Hafter. apply recordAll_lookup_other, Hk.
  - intros earlier entry later k stored Hentries Hrec Hlater.
    rewrite Hafter, Hentries, recordAll_app, recordAll_cons, Hrec.
    rewrite recordAll_lookup_other by exact Hlater.
    apply lookup_insert_eq.
  - rewrite !Hafter. apply recordAll_twice.
Qed.

(** X8: the name [getCompletionsAtPosition] gives to a recorded entry
    leads back to it: when the token is not empty, holds no dollar and is
    not recorded again later in the list, a [getCompletionEntryDetails]
    request for the displayed name, made next, returns the synthesized
    details with the entry's theme key and theme value. *)
Theorem displayed_name_round_trip (info : PluginCreateInfo)
    (fileName : string) (position : Z)
    (options : option GetCompletionsAtPositionOptions)
    (original : CompletionInfo)
    (earlier : list CompletionEntry) (entry : CompletionEntry)
    (later : list CompletionEntry)
    (parts : TokenValueParts) (tokens : gmap string ThemeValue)
    (tokenValue : ThemeValue) (m : TokenConfigMap) :
  let config := getConfigAtPath Tokenami (configPathOf Tokenami info) in
  let proxy := plugin_proxy (create Tokenami fileExists info) in
  fileExists (configPathOf Tokenami info) = true ->
  getCompletionsAtPosition (languageService info) fileName position options
  = Some original ->
  ci_entries original = earlier ++ entry :: later ->
  TokenValue_safeParse Tokenami (ce_name entry) = true ->
  getTokenValueParts Tokenami (ce_name entry) = Some parts ->
  theme config !! themeKey parts = Some tokens ->
  tokens !! token parts = Some tokenValue ->
  truthy_value tokenValue = true ->
  token parts <> EmptyString ->
  lacks Js.dollar (token parts) = true ->
  notRecordedUnder Tokenami config (token parts) later ->
  let answer :=
    proxy_getCompletionsAtPosition proxy fileName position options m in
  exists augmented entry',
    fst answer = Some augmented
    /\ ci_entries augmented !! length earlier = Some entry'
    /\ ce_name entry' = "$" +:+ token parts
    /\ ce_insertText entry' = Some (ce_name entry)
    /\ forall fileName' position' formatOptions source preferences data,
         proxy_getCompletionEntryDetails proxy fileName' position'
           (ce_name entry') formatOptions source preferences data
           (snd answer)
         = (Some {| ced_name := "$" +:+ token parts;
                    ced_kind := "string";
                    ced_kindModifiers := themeKey parts;
                    ced_displayParts :=
                      [ {| sdp_text := String_ tokenValue;
                           sdp_kind := "markdown" |} ];
                    ced_documentation := None |}, snd answer).
Proof.
  intros config proxy Hexists Hhost Hentries Hparse Hparts Htheme Htoken
    Htruthy Hne Hplain Hlater answer.
  pose proof (recorded_resolved config _ _ _ _ Hparse Hparts Htheme Htoken
                Htruthy) as Hrec.
  assert (Hproxy : proxy_getCompletionsAtPosition proxy
                   = augmented_getCompletionsAtPosition Tokenami info config
          /\ proxy_getCompletionEntryDetails proxy
             = augmented_getCompletionEntryDetails info).
  { unfold proxy, create. fold (configPathOf Tokenami info).
    rewrite Hexists. split; reflexivity. }
  destruct Hproxy as [Hcompletions Hdetails].
  assert (Hcache : snd answer !! token parts
                   = Some {| tce_themeKey := themeKey parts;
                             tce_tokenValue := tokenValue |}).
  { unfold answer. rewrite Hcompletions, completions_cache, Hhost, Hentries.
    rewrite recordAll_app, recordAll_cons, Hrec.
    rewrite recordAll_lookup_other by exact Hlater.
    apply lookup_insert_eq. }
  pose proof (augmentEntry_rewrite config entry ∅) as [_ Hrewrite].
  rewrite Hrec in Hrewrite. destruct Hrewrite as (Hname & _ & Hinsert & _).
  eexists. exists (fst (augmentEntry Tokenami config entry ∅)).
  split.
  { unfold answer. rewrite Hcompletions.
    apply completions_entries, Hhost. }
  split.
  { simpl. rewrite Hentries, list_lookup_fmap.
    rewrite list_lookup_middle by reflexivity. reflexivity. }
  split; [exact Hname|]. split; [exact Hinsert|].
  intros fileName' position' formatOptions source preferences data.
  rewrite Hdetails, Hname.
  apply (details_of_token info fileName' position' _ formatOptions source
           preferences data (snd answer) (token parts) _
           (shortToken_displayed _ Hplain) Hne Hcache).
Qed.

(** X9: whatever operations are performed on the plugin from its
    creation, every binding of the session cache files a truthy value of
    the theme under its own token and theme key:
    [config.theme[themeKey][token]] is the cached value, and the token
    and theme key are the parts of a token value. *)
Theorem cache_holds_theme_values (info : PluginCreateInfo)
    (ops : list Operation) (k : string) (stored : TokenConfigEntry) :
  let config := getConfigAtPath Tokenami (configPathOf Tokenami info) in
  performAll (plugin_proxy (create Tokenami fileExists info)) ops ∅ !! k
  = Some stored ->
  (exists tokens,
      theme config !! tce_themeKey stored = Some tokens
      /\ tokens !! k = Some (tce_tokenValue stored))
  /\ truthy_value (tce_tokenValue stored) = true
  /\ exists entryName parts,
       TokenValue_safeParse Tokenami entryName = true
       /\ getTokenValueParts Tokenami entryName = Some parts
       /\ token parts = k /\ themeKey parts = tce_themeKey stored.
Proof.
  intros config Hk.
  assert (Hempty : holdsThemeValues Tokenami config ∅).
  { intros k' stored' H. rewrite lookup_empty in H. discriminate. }
  destruct (performAll_holds info ops ∅ Hempty k stored Hk)
    as (entryName & Hrec).
  destruct (recorded_inv config _ _ _ Hrec)
    as (Hparse & parts & tokens & Hparts & Htoken & Hkey & Htheme & Hvalue
        & Htruthy).
  split; [exists tokens; split; assumption|]. split; [exact Htruthy|].
  exists entryName, parts. repeat split; assumption.
Qed.

(** X10: as long as no completion list has been asked for, the details
    of every entry are the host's: after any operations other than
    [getCompletionsAtPosition] on a new plugin, the cache is empty and
    [getCompletionEntryDetails] returns what the host returns. *)
Theorem details_before_any_completion (info : PluginCreateInfo)
    (ops : list Operation) (fileName : string) (position : Z)
    (entryName : string) (formatOptions : option FormatCodeSettings)
    (source : option string) (preferences : option UserPreferences)
    (data : option CompletionEntryData) :
  Forall (fun op => readsOnly op = true) ops ->
  let proxy := plugin_proxy (create Tokenami fileExists info) in
  let m := performAll proxy ops ∅ in
  m = ∅
  /\ proxy_getCompletionEntryDetails proxy fileName position entryName
       formatOptions source preferences data m
     = (getCompletionEntryDetails (languageService info) fileName position
          entryName formatOptions source preferences data, ∅).
Proof.
  intros Hops proxy m.
  assert (Hm : m = ∅) by apply (performAll_reads_only info ops ∅ Hops).
  split; [exact Hm|]. rewrite Hm. unfold proxy, create.
  destruct (negb (fileExists _)); simpl; [reflexivity|].
  unfold augmented_getCompletionEntryDetails, bind, entryConfigOf.
  destruct (shortToken entryName) as [t|]; [|reflexivity].
  destruct (Js.truthy_string t); [|reflexivity].
  unfold map_get. rewrite lookup_empty. reflexivity.
Qed.

(** *** The node at a position, and the text of the fix *)

Lemma preorder_unfold (node : Node) :
  preorder node = node :: flat_map preorder (childrenOf node).
Proof. destruct node; reflexivity. Qed.

Lemma preorder_self (node : Node) : In node (preorder node).
Proof. rewrite preorder_unfold. left. reflexivity. Qed.

Lemma preorder_child (node child x : Node) :
  In child (childrenOf node) -> In x (preorder child) ->
  In x (preorder node).
Proof.
  intros Hchild Hx. rewrite preorder_unfold. right.
  apply in_flat_map. exists child. split; assumption.
Qed.

(** The node found is in the tree searched, and so is its parent, which
    covers the position as well. *)
Lemma find_in_tree (position : Z) (node : Node) :
  forall parent found foundParent,
    find position parent node = Some (found, foundParent) ->
    In found (preorder node)
    /\ ((found = node /\ foundParent = parent)
        \/ exists p,
             foundParent = Some p /\ In p (preorder node)
             /\ In found (childrenOf p) /\ covers position p = true).
Proof.
  induction node as [node IH] using Node_children_ind.
  intros parent found foundParent. rewrite find_unfold.
  destruct (covers position node) eqn:Hcovers; [|discriminate].
  destruct (forEachChild (find position (Some node)) (childrenOf node))
    as [answer|] eqn:Hbelow.
  - intros [= ->].
    destruct (forEachChild_Some _ _ _ Hbelow) as (child & Hin & Hchild).
    rewrite Forall_forall in IH.
    destruct (IH child (proj2 (list_elem_of_In _ _) Hin) _ _ _ Hchild)
      as (Hfound & [[-> ->]|(p & -> & Hp & Hfp & Hcp)]).
    + split; [apply (preorder_child node child); assumption|].
      right. exists node. repeat split; try assumption.
      apply preorder_self.
    + split; [apply (preorder_child node child); assumption|].
      right. exists p. repeat split; try assumption.
      apply (preorder_child node child); assumption.
  - intros [= <- <-]. split; [apply preorder_self|left; auto].
Qed.

(** X1: [findNodeAtPosition] finds nothing exactly when the source file
    does not cover the position.  The node it finds is a node of the
    file that covers the position, and none of whose children does; it
    comes without a parent exactly when it is the source file itself,
    and otherwise with the node of the file it is a child of, which
    covers the position too. *)
Theorem node_at_position (sourceFile : SourceFile) (position : Z) :
  (findNodeAtPosition sourceFile position = None
   <-> covers position (sf_node sourceFile) = false)
  /\ (forall node parent,
        findNodeAtPosition sourceFile position = Some (node, parent) ->
        In node (preorder (sf_node sourceFile))
        /\ covers position node = true
        /\ Forall (fun child => covers position child = false)
                  (childrenOf node)
        /\ match parent with
           | None => node = sf_node sourceFile
           | Some p =>
               In p (preorder (sf_node sourceFile))
               /\ In node (childrenOf p)
               /\ covers position p = true
           end).
Proof.
  unfold findNodeAtPosition. split.
  - split; [apply find_None|].
    intros Houtside. rewrite find_unfold, Houtside. reflexivity.
  - intros node parent Hfind.
    destruct (find_smallest _ _ _ _ _ Hfind) as (Hcovers & Hchildren & _).
    destruct (find_in_tree _ _ _ _ _ Hfind)
      as (Hin & [[-> ->]|(p & -> & Hp & Hchild & Hcp)]).
    + repeat split; assumption.
    + repeat split; assumption.
Qed.

(** X3: on a string literal whose source text is word-shaped (quoted or
    not), the fix puts the arbitrary value of the literal's text between
    the very quotes of the source, provided the arbitrary value holds no
    dollar: the new text is the opening quote, the arbitrary value and
    the closing quote, and the description quotes it in full. *)
Theorem code_fix_keeps_quotes (info : PluginCreateInfo)
    (fileName : string) (start end_ : Z) (errorCodes : list Z)
    (formatOptions : FormatCodeSettings) (preferences : UserPreferences)
    (sourceFile : SourceFile) (value : Node) (text : string)
    (g1 g2 : option string) (w : string) :
  fixApplies info fileName start errorCodes sourceFile value text ->
  getText sourceFile value = quoteText g1 +:+ w +:+ quoteText g2 ->
  quoteCapture g1 -> quoteCapture g2 ->
  w <> EmptyString -> allWordShape w = true ->
  lacks Js.dollar (arbitraryValue Tokenami text) = true ->
  let newText :=
    quoteText g1 +:+ arbitraryValue Tokenami text +:+ quoteText g2 in
  augmented_getCodeFixesAtPosition Tokenami info fileName start end_
    errorCodes formatOptions preferences
  = [ {| fix_description := "Use " +:+ newText +:+ " to mark as arbitrary";
         fix_fixName := "replaceWithArbitrary";
         fix_changes :=
           [ {| ftc_fileName := fileName;
                ftc_textChanges :=
                  [ {| tc_span :=
                         {| span_start := getStart value;
                            span_length := getEnd value - getStart value |};
                       tc_newText := newText |} ] |} ];
         fix_fixId := None |} ].
Proof.
  intros Happlies Htext Hg1 Hg2 Hne Hall Hplain newText.
  unfold augmented_getCodeFixesAtPosition.
  rewrite (arbitraryFix_applies _ _ _ _ _ _ _ Happlies), Htext.
  rewrite (arbitraryTextOf_word_shaped g1 g2 w text Hg1 Hg2 Hne Hall Hplain).
  reflexivity.
Qed.

End Facts.

(** * The sample project, run *)

#[local] Existing Instance Sample.host_types.

(** C2 at the sample project when the configuration file is missing. *)
Lemma no_config_pass_through_witness :
  let proxy :=
    plugin_proxy (create Sample.tokenami Sample.missing Sample.redInfo) in
  Sample.missing (configPathOf Sample.tokenami Sample.redInfo) = false
  /\ (forall m,
        proxy_getCodeFixesAtPosition proxy "/app/index.ts" 12 13 [2322] tt tt m
        = ([Sample.hostFix], m))
  /\ (forall m,
        proxy_getCompletionEntryDetails proxy "/app/index.ts" 3 "$blue"
          None None None None m
        = (Some (Sample.hostDetails "$blue"), m)).
Proof.
  cbv zeta. split; [reflexivity|].
  pose proof (no_config_pass_through Sample.tokenami Sample.missing
                Sample.redInfo eq_refl) as (_ & Hfixes & _ & Hdetails).
  split.
  - intros m. apply (Hfixes "/app/index.ts" 12 13 [2322] tt tt m).
  - intros m.
    apply (Hdetails "/app/index.ts" 3 "$blue" None None None None m).
Defined.


(** C5 at the sample project: the fix for the value [red], and the host's
    fixes when the error codes do not include the invalid-value code. *)
Lemma code_fix_single_action_witness :
  fixApplies Sample.redInfo "/app/index.ts" 12 [2322] Sample.redFile
    (StringLiteral 11 16 "red") "red"
  /\ augmented_getCodeFixesAtPosition Sample.tokenami Sample.redInfo
       "/app/index.ts" 12 13 [2322] tt tt
     = [ {| fix_description := "Use 'var(---,red)' to mark as arbitrary";
            fix_fixName := "replaceWithArbitrary";
            fix_changes :=
              [ {| ftc_fileName := "/app/index.ts";
                   ftc_textChanges :=
                     [ {| tc_span := {| span_start := 11; span_length := 5 |};
                          tc_newText := "'var(---,red)'" |} ] |} ];
            fix_fixId := None |} ]
  /\ augmented_getCodeFixesAtPosition Sample.tokenami Sample.redInfo
       "/app/index.ts" 12 13 [2304] tt tt
     = [Sample.hostFix].
Proof.
  assert (Happlies : fixApplies Sample.redInfo "/app/index.ts" 12 [2322]
                       Sample.redFile (StringLiteral 11 16 "red") "red").
  { split; [left; reflexivity|].
    split; [reflexivity|].
    split; [|split; [reflexivity|discriminate]].
    exists (StringLiteral 11 16 "red"), 6, 16, (StringLiteral 6 9 "p").
    reflexivity. }
  split; [exact Happlies|]. split.
  - apply (proj1 (code_fix_single_action Sample.tokenami Sample.redInfo
                    "/app/index.ts" 12 13 [2322] tt tt)
             Sample.redFile (StringLiteral 11 16 "red") "red" Happlies).
  - apply (proj2 (code_fix_single_action Sample.tokenami Sample.redInfo
                    "/app/index.ts" 12 13 [2304] tt tt)).
    intros (sourceFile & value & text & Hcodes & _).
    destruct Hcodes as [Hcode|[]]. discriminate Hcode.
Defined.

(** C3 as stated fails on the value ['10 px']: its source text does not
    match the pattern, and yet a synthesized fix is returned in place of
    the host's fixes. *)
Lemma code_fix_offered_without_word_shape :
  let value := StringLiteral 11 18 "10 px" in
  let fixes :=
    augmented_getCodeFixesAtPosition Sample.tokenami Sample.spacedInfo
      "/app/index.ts" 12 13 [2322] tt tt in
  findNodeAtPosition Sample.spacedFile 12
  = Some (value, Some (PropertyAssignment 6 18 (StringLiteral 6 9 "p") value))
  /\ getText Sample.spacedFile value = "'10 px'"
  /\ Js.exec_word_shape "'10 px'" = None
  /\ fixes
     = [ {| fix_description := "Use '10 px' to mark as arbitrary";
            fix_fixName := "replaceWithArbitrary";
            fix_changes :=
              [ {| ftc_fileName := "/app/index.ts";
                   ftc_textChanges :=
                     [ {| tc_span := {| span_start := 11; span_length := 7 |};
                          tc_newText := "'10 px'" |} ] |} ];
            fix_fixId := None |} ]
  /\ fixes
     <> getCodeFixesAtPosition (languageService Sample.spacedInfo)
          "/app/index.ts" 12 13 [2322] tt tt.
Proof.
  cbv zeta. repeat split; try reflexivity.
  vm_compute. discriminate.
Qed.

(** C3, amended, at the sample project. *)
Lemma code_fix_without_word_shape_witness :
  let value := StringLiteral 11 18 "10 px" in
  fixApplies Sample.spacedInfo "/app/index.ts" 12 [2322] Sample.spacedFile
    value "10 px"
  /\ Js.exec_word_shape (getText Sample.spacedFile value) = None
  /\ arbitraryTextOf Sample.tokenami (getText Sample.spacedFile value) "10 px"
     = "'10 px'"
  /\ augmented_getCodeFixesAtPosition Sample.tokenami Sample.spacedInfo
       "/app/index.ts" 12 13 [2322] tt tt
     = [ {| fix_description := "Use '10 px' to mark as arbitrary";
            fix_fixName := "replaceWithArbitrary";
            fix_changes :=
              [ {| ftc_fileName := "/app/index.ts";
                   ftc_textChanges :=
                     [ {| tc_span := {| span_start := 11; span_length := 7 |};
                          tc_newText := "'10 px'" |} ] |} ];
            fix_fixId := None |} ].
Proof.
  cbv zeta.
  assert (Happlies : fixApplies Sample.spacedInfo "/app/index.ts" 12 [2322]
                       Sample.spacedFile (StringLiteral 11 18 "10 px")
                       "10 px").
  { split; [left; reflexivity|].
    split; [reflexivity|].
    split; [|split; [reflexivity|discriminate]].
    exists (StringLiteral 11 18 "10 px"), 6, 18, (StringLiteral 6 9 "p").
    reflexivity. }
  split; [exact Happlies|]. split; [reflexivity|].
  apply (code_fix_without_word_shape Sample.tokenami Sample.spacedInfo
           "/app/index.ts" 12 13 [2322] tt tt Sample.spacedFile
           (StringLiteral 11 18 "10 px") "10 px" Happlies eq_refl).
Defined.


(** C1 as stated fails on [x = { 'ai$sm': 'red' }]: the one diagnostic
    appended starts at the name but has the width of the whole
    assignment (14), not the width of the name node (7). *)
Lemma selector_diagnostic_spans_assignment :
  let name := StringLiteral 6 13 "ai$sm" in
  let node := PropertyAssignment 6 20 name (StringLiteral 15 20 "red") in
  let diagnostics :=
    augmented_getSemanticDiagnostics Sample.tokenami Sample.unresolvedInfo
      Sample.config "/app/index.ts" in
  visited Sample.unresolvedFile
  = [ OtherNode 0 22 [OtherNode 0 1 []; OtherNode 4 22 [node]];
      OtherNode 0 1 []; OtherNode 4 22 [node]; node; name;
      StringLiteral 15 20 "red" ]
  /\ TokenProperty_safeParse Sample.tokenami (Some "ai$sm") = true
  /\ getTokenPropertyParts Sample.tokenami (Some "ai$sm") Sample.config = None
  /\ diagnostics
     = [ {| d_file := Some Sample.unresolvedFile;
            d_start := Some 6;
            d_length := Some 14;
            d_messageText :=
              MessageString
                "Invalid property 'ai$sm'. Selector not found in theme.";
            d_category := Error;
            d_code := 50000 |} ]
  /\ getStart name = 6 /\ getWidth name = 7 /\ getWidth node = 14
  /\ Forall (fun d => d_length d <> Some (getWidth name)) diagnostics.
Proof.
  cbv zeta. repeat split; try reflexivity.
  vm_compute. repeat constructor. discriminate.
Qed.

(** C1, amended, at the sample project. *)
Lemma selector_diagnostics_appended_witness :
  let node := Sample.assignment "ai$sm" "red" in
  sourceFileOf (languageService Sample.unresolvedInfo) "/app/index.ts"
  = Some Sample.unresolvedFile
  /\ (exists hostPart,
        augmented_getSemanticDiagnostics Sample.tokenami Sample.unresolvedInfo
          Sample.config "/app/index.ts"
        = hostPart
          ++ omap (selectorDiagnosticAt Sample.tokenami Sample.config
                     Sample.unresolvedFile)
                  (visited Sample.unresolvedFile)
        /\ Forall2 sameButMessage [] hostPart)
  /\ selectorDiagnosticAt Sample.tokenami Sample.config Sample.unresolvedFile
       node
     = Some {| d_file := Some Sample.unresolvedFile;
               d_start := Some 6;
               d_length := Some (20 - 6);
               d_messageText :=
                 MessageString
                   "Invalid property 'ai$sm'. Selector not found in theme.";
               d_category := Error;
               d_code := 50000 |}.
Proof.
  cbv zeta. split; [reflexivity|].
  pose proof (selector_diagnostics_appended Sample.tokenami
                Sample.unresolvedInfo Sample.config "/app/index.ts"
                Sample.unresolvedFile eq_refl)
    as (Hlist & _ & Hone & _).
  split; [exact Hlist|].
  apply (Hone 6 20 6 13 "ai$sm" (StringLiteral 15 20 "red")); reflexivity.
Defined.

(** C6 as stated fails on [x = { 'p': '' }]: the value side is a string
    literal, and the first matching diagnostic gets the grid-values
    message, not the message naming the value. *)
Lemma empty_literal_gets_grid_message :
  let d := Sample.notAssignable Sample.emptyFile 6 in
  let diagnostics :=
    augmented_getSemanticDiagnostics Sample.tokenami Sample.emptyInfo
      Sample.config "/app/index.ts" in
  stringLiteralText (StringLiteral 11 13 EmptyString) = Some EmptyString
  /\ TokenProperty_safeParse Sample.tokenami (Some "p") = true
  /\ getSemanticDiagnostics (languageService Sample.emptyInfo) "/app/index.ts"
     = [d; d]
  /\ diagnostics
     = [ with_messageText d "Grid values are not assignable to 'p'."; d ]
  /\ Forall
       (fun d' =>
          d_messageText d'
          <> MessageString
               ("Value '' is not assignable to 'p'. "
                +:+ "Use theme value or mark arbitrary with 'var(---,)'"))
       diagnostics.
Proof.
  cbv zeta. repeat split; try reflexivity.
  vm_compute. repeat constructor; discriminate.
Qed.

(** C6, amended, at the sample project: [x = { 'p': 'red' }], about
    whose value the host complains twice.  The first complaint gets the
    message naming the value; the second one is returned as it was. *)
Lemma invalid_value_message_rewritten_witness :
  let node :=
    PropertyAssignment 6 16 (StringLiteral 6 9 "p") (StringLiteral 11 16 "red")
  in
  let d := Sample.notAssignable Sample.redFile 6 in
  let result :=
    augmented_getSemanticDiagnostics Sample.tokenami Sample.twiceInfo
      Sample.config "/app/index.ts" in
  getSemanticDiagnostics (languageService Sample.twiceInfo) "/app/index.ts"
  = [Sample.missingComma Sample.redFile 6]
    ++ d :: [d; Sample.notAssignable Sample.redFile 0]
  /\ In node (visited Sample.redFile)
  /\ TokenProperty_safeParse Sample.tokenami (Some "p") = true
  /\ d_code d = INVALID_VALUE_ERROR_CODE
  /\ d_start d = Some (getStart node)
  /\ (exists d',
        result !! 1%nat = Some d'
        /\ sameButMessage d d'
        /\ d_messageText d'
           = MessageString
               ("Value 'red' is not assignable to 'p'. "
                +:+ "Use theme value or mark arbitrary with 'var(---,red)'"))
  /\ result !! 2%nat = Some d.
Proof.
  cbv zeta.
  assert (Hin : In (PropertyAssignment 6 16 (StringLiteral 6 9 "p")
                      (StringLiteral 11 16 "red"))
                   (visited Sample.redFile))
    by (cbn; repeat (first [left; reflexivity | right])).
  assert (Hsole : Forall
                    (fun other =>
                       isCandidate Sample.tokenami other = true ->
                       getStart other = 6 ->
                       other = PropertyAssignment 6 16 (StringLiteral 6 9 "p")
                                 (StringLiteral 11 16 "red"))
                    (visited Sample.redFile))
    by (repeat constructor; intros Hc Hs;
        first [reflexivity | discriminate Hc | discriminate Hs]).
  assert (Hbefore : Forall
                      (fun d' =>
                         ~ (d_code d' = INVALID_VALUE_ERROR_CODE
                            /\ d_start d'
                               = Some (getStart
                                         (PropertyAssignment 6 16
                                            (StringLiteral 6 9 "p")
                                            (StringLiteral 11 16 "red")))))
                      [Sample.missingComma Sample.redFile 6])
    by (repeat constructor; intros [Hc _]; discriminate Hc).
  destruct (invalid_value_message_rewritten Sample.tokenami Sample.twiceInfo
              Sample.config "/app/index.ts" Sample.redFile 6 16
              (StringLiteral 6 9 "p") (StringLiteral 11 16 "red")
              [Sample.missingComma Sample.redFile 6]
              (Sample.notAssignable Sample.redFile 6)
              [Sample.notAssignable Sample.redFile 6;
               Sample.notAssignable Sample.redFile 0]
              eq_refl eq_refl Hin eq_refl Hsole eq_refl eq_refl Hbefore)
    as (d' & Hfirst & Hsame & Hvalue & _ & Hlater & _).
  split; [reflexivity|]. split; [exact Hin|].
  repeat (split; [reflexivity|]). split.
  - exists d'. split; [exact Hfirst|]. split; [exact Hsame|].
    apply (Hvalue 11 16 "red" eq_refl). discriminate.
  - apply (Hlater 0%nat (Sample.notAssignable Sample.redFile 6));
      reflexivity.
Defined.

(** What the host of [Sample.entriesInfo] answers to a completion
    request. *)
Lemma sample_completions :
  getCompletionsAtPosition (languageService Sample.entriesInfo)
    "/app/index.ts" 3 None
  = Some (Sample.completionsOf Sample.entries).
Proof. reflexivity. Qed.

(** C7 as stated fails on the entry [ai$sm]: its name passes the
    structural predicate and does not decode, and it still gets the
    marker sort key.  And the description of the variant [print] is
    configured, as the empty text, and is not attached. *)
Lemma undecodable_property_sorts_ahead :
  let completions :=
    fst (augmented_getCompletionsAtPosition Sample.tokenami Sample.entriesInfo
           Sample.config "/app/index.ts" 3 None ∅) in
  TokenProperty_safeParse Sample.tokenami (Some "ai$sm") = true
  /\ getTokenPropertyParts Sample.tokenami (Some "ai$sm") Sample.config = None
  /\ (ci_entries <$> completions) ≫= (.!! 0%nat)
     = Some {| ce_name := "ai$sm"; ce_kind := "property";
               ce_kindModifiers := None; ce_sortText := "$ai$sm";
               ce_insertText := None; ce_labelDetails := None |}
  /\ getTokenPropertyParts Sample.tokenami (Some "print$p") Sample.config
     = Some (Sample.responsiveParts "print" "p")
  /\ responsive Sample.config ≫= (.!! "print") = Some EmptyString
  /\ (ci_entries <$> completions) ≫= (.!! 2%nat)
     = Some {| ce_name := "print$p"; ce_kind := "property";
               ce_kindModifiers := None; ce_sortText := "$print$p";
               ce_insertText := None; ce_labelDetails := None |}.
Proof. cbv zeta. repeat split; vm_compute; reflexivity. Qed.

(** C7, amended, at the sample project. *)
Lemma completion_sort_keys_witness :
  getCompletionsAtPosition (languageService Sample.entriesInfo)
    "/app/index.ts" 3 None
  = Some (Sample.completionsOf Sample.entries)
  /\ exists augmented,
       fst (augmented_getCompletionsAtPosition Sample.tokenami
              Sample.entriesInfo Sample.config "/app/index.ts" 3 None ∅)
       = Some augmented
       /\ ce_sortText <$> ci_entries augmented
          = ["$ai$sm"; "$md$p"; "$print$p"; "$blue"; "$none"; "zzz"]
       /\ ce_labelDetails <$> ci_entries augmented !! 1%nat
          = Some (Some {| ld_detail := Some EmptyString;
                          ld_description := Some "min-width: 700px" |}).
Proof.
  split; [exact sample_completions|].
  destruct (completion_sort_keys Sample.tokenami Sample.entriesInfo
              Sample.config "/app/index.ts" 3 None ∅
              (Sample.completionsOf Sample.entries) sample_completions)
    as (augmented & Haugmented & Hentries).
  exists augmented. split; [exact Haugmented|].
  vm_compute in Haugmented. injection Haugmented as <-.
  split; reflexivity.
Defined.

(** C4 as stated fails on the entry [$none]: the theme has a value for
    [space.none], the number zero, and the token is not recorded, so the
    details of [$none] are the host's. *)
Lemma falsy_theme_value_not_recorded :
  let proxy :=
    plugin_proxy
      (create Sample.tokenami Sample.fileExists Sample.entriesInfo) in
  let m1 :=
    snd (proxy_getCompletionsAtPosition proxy "/app/index.ts" 3 None ∅) in
  Sample.fileExists (configPathOf Sample.tokenami Sample.entriesInfo) = true
  /\ TokenValue_safeParse Sample.tokenami "$none" = true
  /\ getTokenValueParts Sample.tokenami "$none"
     = Some {| themeKey := "space"; token := "none" |}
  /\ theme Sample.config !! "space" ≫= (.!! "none") = Some (ThemeNumber 0)
  /\ m1 !! "none" = None
  /\ shortToken "$none" = Some "none"
  /\ fst (proxy_getCompletionEntryDetails proxy "/app/index.ts" 3 "$none"
            None None None None m1)
     = Some (Sample.hostDetails "$none").
Proof. cbv zeta. repeat split; vm_compute; reflexivity. Qed.

(** C4, amended, at the sample project: the entry [$blue]. *)
Lemma completions_then_details_witness :
  let proxy :=
    plugin_proxy
      (create Sample.tokenami Sample.fileExists Sample.entriesInfo) in
  let m1 :=
    snd (proxy_getCompletionsAtPosition proxy "/app/index.ts" 3 None ∅) in
  Sample.fileExists (configPathOf Sample.tokenami Sample.entriesInfo) = true
  /\ TokenValue_safeParse Sample.tokenami "$blue" = true
  /\ getTokenValueParts Sample.tokenami "$blue"
     = Some {| themeKey := "color"; token := "blue" |}
  /\ theme Sample.config !! "color" ≫= (.!! "blue")
     = Some (ThemeString "#00f")
  /\ m1 !! "blue"
     = Some {| tce_themeKey := "color"; tce_tokenValue := ThemeString "#00f" |}
  /\ shortToken "$blue" = Some "blue"
  /\ exists entryConfig,
       performAll proxy [] m1 !! "blue" = Some entryConfig
       /\ proxy_getCompletionEntryDetails proxy "/app/index.ts" 3 "$blue"
            None None None None (performAll proxy [] m1)
          = (Some {| ced_name := "$blue";
                     ced_kind := "string";
                     ced_kindModifiers := tce_themeKey entryConfig;
                     ced_displayParts :=
                       [ {| sdp_text := String_ (tce_tokenValue entryConfig);
                            sdp_kind := "markdown" |} ];
                     ced_documentation := None |}, performAll proxy [] m1).
Proof.
  cbv zeta. repeat (split; [vm_compute; reflexivity|]).
  destruct (completions_then_details Sample.tokenami Sample.fileExists
              Sample.entriesInfo "/app/index.ts" 3 None
              (Sample.completionsOf Sample.entries)
              [ Sample.entry "ai$sm"; Sample.entry "md$p";
                Sample.entry "print$p" ]
              (Sample.entry "$blue")
              [ Sample.entry "$none"; Sample.entry "zzz" ]
              {| themeKey := "color"; token := "blue" |}
              {[ "blue" := ThemeString "#00f" ]}
              (ThemeString "#00f") ∅)
    as (_ & _ & _ & Hdetails).
  - reflexivity.
  - exact sample_completions.
  - reflexivity.
  - reflexivity.
  - reflexivity.
  - vm_compute. reflexivity.
  - vm_compute. reflexivity.
  - reflexivity.
  - discriminate.
  - apply (Hdetails [] "/app/index.ts" 3 "$blue" None None None None).
    reflexivity.
Defined.

(** ** The further properties, run *)

(** X1 at the sample file [x = { 'p': 'red' }]: offset 12 is in the
    value, offset 100 is past the end of the file. *)
Lemma node_at_position_witness :
  let value := StringLiteral 11 16 "red" in
  let assignment := PropertyAssignment 6 16 (StringLiteral 6 9 "p") value in
  covers 100 (sf_node Sample.redFile) = false
  /\ findNodeAtPosition Sample.redFile 100 = None
  /\ findNodeAtPosition Sample.redFile 12 = Some (value, Some assignment)
  /\ In value (preorder (sf_node Sample.redFile))
  /\ covers 12 value = true
  /\ In assignment (preorder (sf_node Sample.redFile))
  /\ In value (childrenOf assignment)
  /\ covers 12 assignment = true.
Proof.
  cbv zeta. split; [reflexivity|]. split.
  - apply (proj2 (proj1 (node_at_position Sample.redFile 100))).
    reflexivity.
  - split; [reflexivity|].
    destruct (proj2 (node_at_position Sample.redFile 12)
                (StringLiteral 11 16 "red")
                (Some (PropertyAssignment 6 16 (StringLiteral 6 9 "p")
                         (StringLiteral 11 16 "red")))
                eq_refl)
      as (Hin & Hcovers & _ & Hp & Hchild & Hcp).
    repeat split; assumption.
Defined.

(** X2 at the text ['red'] and at the unmatched text ['10 px']. *)
Lemma word_shape_pattern_witness :
  Js.exec_word_shape "'red'"
  = Some [Some (String Js.squote EmptyString);
          Some (String Js.squote EmptyString)]
  /\ Js.exec_word_shape "red-500" = Some [None; None].
Proof.
  split.
  - apply (proj2 (word_shape_pattern "'red'" _)).
    exists (Some (String Js.squote EmptyString)), "red",
           (Some (String Js.squote EmptyString)).
    split; [reflexivity|]. split; [reflexivity|].
    split; [right; exists Js.squote; split; reflexivity|].
    split; [right; exists Js.squote; split; reflexivity|].
    split; [discriminate|reflexivity].
  - apply (proj2 (word_shape_pattern "red-500" _)).
    exists None, "red-500", None.
    split; [reflexivity|]. split; [reflexivity|].
    split; [left; reflexivity|]. split; [left; reflexivity|].
    split; [discriminate|reflexivity].
Defined.

(** X3 at the sample file [x = { 'p': 'red' }]. *)
Lemma code_fix_keeps_quotes_witness :
  let value := StringLiteral 11 16 "red" in
  let quote := Some (String Js.squote EmptyString) in
  fixApplies Sample.redInfo "/app/index.ts" 12 [2322] Sample.redFile
    value "red"
  /\ getText Sample.redFile value
     = quoteText quote +:+ "red" +:+ quoteText quote
  /\ lacks Js.dollar (arbitraryValue Sample.tokenami "red") = true
  /\ augmented_getCodeFixesAtPosition Sample.tokenami Sample.redInfo
       "/app/index.ts" 12 13 [2322] tt tt
     = [ {| fix_description := "Use 'var(---,red)' to mark as arbitrary";
            fix_fixName := "replaceWithArbitrary";
            fix_changes :=
              [ {| ftc_fileName := "/app/index.ts";
                   ftc_textChanges :=
                     [ {| tc_span := {| span_start := 11; span_length := 5 |};
                          tc_newText := "'var(---,red)'" |} ] |} ];
            fix_fixId := None |} ].
Proof.
  cbv zeta.
  assert (Happlies : fixApplies Sample.redInfo "/app/index.ts" 12 [2322]
                       Sample.redFile (StringLiteral 11 16 "red") "red").
  { split; [left; reflexivity|].
    split; [reflexivity|].
    split; [|split; [reflexivity|discriminate]].
    exists (StringLiteral 11 16 "red"), 6, 16, (StringLiteral 6 9 "p").
    reflexivity. }
  split; [exact Happlies|]. split; [reflexivity|]. split; [reflexivity|].
  apply (code_fix_keeps_quotes Sample.tokenami Sample.redInfo
           "/app/index.ts" 12 13 [2322] tt tt Sample.redFile
           (StringLiteral 11 16 "red") "red"
           (Some (String Js.squote EmptyString))
           (Some (String Js.squote EmptyString)) "red" Happlies eq_refl).
  - right. exists Js.squote. split; reflexivity.
  - right. exists Js.squote. split; reflexivity.
  - discriminate.
  - reflexivity.
  - reflexivity.
Defined.

(** X4 at the sample file [x = { 'p': 'red' }] with three complaints of
    the host: the one with another code and the one elsewhere are as
    they were, the one about the assignment has the new message. *)
Lemma host_diagnostics_kept_or_rewritten_witness :
  let result :=
    augmented_getSemanticDiagnostics Sample.tokenami Sample.mixedInfo
      Sample.config "/app/index.ts" in
  sourceFileOf (languageService Sample.mixedInfo) "/app/index.ts"
  = Some Sample.redFile
  /\ result !! 0%nat = Some (Sample.missingComma Sample.redFile 6)
  /\ result !! 2%nat = Some (Sample.notAssignable Sample.redFile 0)
  /\ (exists d',
        result !! 1%nat = Some d'
        /\ sameButMessage (Sample.notAssignable Sample.redFile 6) d')
  /\ result !! 1%nat
     = Some (with_messageText (Sample.notAssignable Sample.redFile 6)
               ("Value 'red' is not assignable to 'p'. "
                +:+ "Use theme value or mark arbitrary with 'var(---,red)'")).
Proof.
  cbv zeta. split; [reflexivity|]. split; [|split; [|split; [|reflexivity]]].
  - destruct (host_diagnostics_kept_or_rewritten Sample.tokenami
                Sample.mixedInfo Sample.config "/app/index.ts"
                Sample.redFile 0 (Sample.missingComma Sample.redFile 6)
                eq_refl eq_refl)
      as (d' & Hd' & _ & _ & Hcode & _).
    rewrite Hd'. f_equal. apply Hcode. discriminate.
  - destruct (host_diagnostics_kept_or_rewritten Sample.tokenami
                Sample.mixedInfo Sample.config "/app/index.ts"
                Sample.redFile 2 (Sample.notAssignable Sample.redFile 0)
                eq_refl eq_refl)
      as (d' & Hd' & _ & _ & _ & Hstart).
    rewrite Hd'. f_equal. apply Hstart.
    repeat constructor; vm_compute; congruence.
  - destruct (host_diagnostics_kept_or_rewritten Sample.tokenami
                Sample.mixedInfo Sample.config "/app/index.ts"
                Sample.redFile 1 (Sample.notAssignable Sample.redFile 6)
                eq_refl eq_refl)
      as (d' & Hd' & Hsame & _).
    exists d'. split; assumption.
Defined.

(** X5 at the sample file [x = { 'zzz': 'red' }], and at a file the
    program does not know. *)
Lemma diagnostics_untouched_without_candidates_witness :
  sourceFileOf (languageService Sample.plainInfo) "/app/other.ts" = None
  /\ augmented_getSemanticDiagnostics Sample.tokenami Sample.plainInfo
       Sample.config "/app/other.ts"
     = [Sample.notAssignable Sample.plainFile 6]
  /\ sourceFileOf (languageService Sample.plainInfo) "/app/index.ts"
     = Some Sample.plainFile
  /\ Forall (fun node => isCandidate Sample.tokenami node = false)
            (visited Sample.plainFile)
  /\ augmented_getSemanticDiagnostics Sample.tokenami Sample.plainInfo
       Sample.config "/app/index.ts"
     = [Sample.notAssignable Sample.plainFile 6].
Proof.
  assert (Hnone : Forall (fun node => isCandidate Sample.tokenami node = false)
                         (visited Sample.plainFile)).
  { vm_compute. repeat constructor. }
  split; [reflexivity|]. split.
  - apply (proj1 (diagnostics_untouched_without_candidates Sample.tokenami
                    Sample.plainInfo Sample.config "/app/other.ts")).
    reflexivity.
  - split; [reflexivity|]. split; [exact Hnone|].
    apply (proj2 (diagnostics_untouched_without_candidates Sample.tokenami
                    Sample.plainInfo Sample.config "/app/index.ts")
             Sample.plainFile eq_refl Hnone).
Defined.

(** X7 at the sample completion list, from the cache that holds [sm]. *)
Lemma completions_cache_overwrites_witness :
  let after (m : gmap string TokenConfigEntry) :=
    snd (augmented_getCompletionsAtPosition Sample.tokenami
           Sample.entriesInfo Sample.config "/app/index.ts" 3 None m) in
  getCompletionsAtPosition (languageService Sample.entriesInfo)
    "/app/index.ts" 3 None
  = Some (Sample.completionsOf Sample.entries)
  /\ after Sample.smCache !! "sm" = Some Sample.smEntry
  /\ after Sample.smCache !! "blue" = Some Sample.blueEntry
  /\ after (after Sample.smCache) = after Sample.smCache.
Proof.
  cbv zeta. split; [exact sample_completions|].
  destruct (completions_cache_overwrites Sample.tokenami Sample.entriesInfo
              Sample.config "/app/index.ts" 3 None
              (Sample.completionsOf Sample.entries) Sample.smCache
              sample_completions)
    as (Hframe & Hlast & Htwice).
  split; [|split; [|exact Htwice]].
  - rewrite Hframe; [reflexivity|].
    repeat constructor; intros k v H; vm_compute in H; congruence.
  - apply (Hlast [ Sample.entry "ai$sm"; Sample.entry "md$p";
                   Sample.entry "print$p" ]
                 (Sample.entry "$blue")
                 [ Sample.entry "$none"; Sample.entry "zzz" ]).
    + reflexivity.
    + vm_compute. reflexivity.
    + repeat constructor; intros k v H; vm_compute in H; discriminate H.
Defined.

(** X8 at the sample completion list: the entry [$blue]. *)
Lemma displayed_name_round_trip_witness :
  let proxy :=
    plugin_proxy
      (create Sample.tokenami Sample.fileExists Sample.entriesInfo) in
  let answer :=
    proxy_getCompletionsAtPosition proxy "/app/index.ts" 3 None ∅ in
  Sample.fileExists (configPathOf Sample.tokenami Sample.entriesInfo) = true
  /\ lacks Js.dollar "blue" = true
  /\ exists augmented entry',
       fst answer = Some augmented
       /\ ci_entries augmented !! 3%nat = Some entry'
       /\ ce_name entry' = "$blue"
       /\ ce_insertText entry' = Some "$blue"
       /\ proxy_getCompletionEntryDetails proxy "/app/index.ts" 3
            (ce_name entry') None None None None (snd answer)
          = (Some {| ced_name := "$blue";
                     ced_kind := "string";
                     ced_kindModifiers := "color";
                     ced_displayParts :=
                       [ {| sdp_text := "#00f"; sdp_kind := "markdown" |} ];
                     ced_documentation := None |}, snd answer).
Proof.
  cbv zeta. split; [reflexivity|]. split; [reflexivity|].
  destruct (displayed_name_round_trip Sample.tokenami Sample.fileExists
              Sample.entriesInfo "/app/index.ts" 3 None
              (Sample.completionsOf Sample.entries)
              [ Sample.entry "ai$sm"; Sample.entry "md$p";
                Sample.entry "print$p" ]
              (Sample.entry "$blue")
              [ Sample.entry "$none"; Sample.entry "zzz" ]
              {| themeKey := "color"; token := "blue" |}
              {[ "blue" := ThemeString "#00f" ]}
              (ThemeString "#00f") ∅)
    as (augmented & entry' & Hanswer & Hentry & Hname & Hinsert & Hdetails).
  - reflexivity.
  - exact sample_completions.
  - reflexivity.
  - reflexivity.
  - reflexivity.
  - vm_compute. reflexivity.
  - vm_compute. reflexivity.
  - reflexivity.
  - discriminate.
  - reflexivity.
  - repeat constructor; intros k v H; vm_compute in H; discriminate H.
  - exists augmented, entry'. repeat split; try assumption.
    apply (Hdetails "/app/index.ts" 3 None None None None).
Defined.

(** X9 at the sample project, after one completion request. *)
Lemma cache_holds_theme_values_witness :
  let proxy :=
    plugin_proxy
      (create Sample.tokenami Sample.fileExists Sample.entriesInfo) in
  performAll proxy [GetCompletionsAtPosition "/app/index.ts" 3 None] ∅
  !! "blue" = Some Sample.blueEntry
  /\ (exists tokens,
        theme Sample.config !! "color" = Some tokens
        /\ tokens !! "blue" = Some (ThemeString "#00f"))
  /\ truthy_value (ThemeString "#00f") = true.
Proof.
  cbv zeta.
  assert (Hbound :
            performAll
              (plugin_proxy
                 (create Sample.tokenami Sample.fileExists
                    Sample.entriesInfo))
              [GetCompletionsAtPosition "/app/index.ts" 3 None] ∅
            !! "blue" = Some Sample.blueEntry)
    by (vm_compute; reflexivity).
  split; [exact Hbound|].
  destruct (cache_holds_theme_values Sample.tokenami Sample.fileExists
              Sample.entriesInfo
              [GetCompletionsAtPosition "/app/index.ts" 3 None]
              "blue" Sample.blueEntry Hbound)
    as (Htheme & Htruthy & _).
  split; [exact Htheme|exact Htruthy].
Defined.

(** X10 at the sample project: diagnostics and details, no completion. *)
Lemma details_before_any_completion_witness :
  let proxy :=
    plugin_proxy
      (create Sample.tokenami Sample.fileExists Sample.entriesInfo) in
  let ops :=
    [ GetSemanticDiagnostics "/app/index.ts";
      GetCompletionEntryDetails "/app/index.ts" 3 "$blue" None None None None ]
  in
  Forall (fun op => readsOnly op = true) ops
  /\ proxy_getCompletionEntryDetails proxy "/app/index.ts" 3 "$blue"
       None None None None (performAll proxy ops ∅)
     = (Some (Sample.hostDetails "$blue"), ∅).
Proof.
  cbv zeta.
  assert (Hops : Forall (fun op => readsOnly op = true)
                   [ GetSemanticDiagnostics "/app/index.ts";
                     GetCompletionEntryDetails "/app/index.ts" 3 "$blue"
                       None None None None ])
    by (repeat constructor).
  split; [exact Hops|].
  apply (proj2 (details_before_any_completion Sample.tokenami
                  Sample.fileExists Sample.entriesInfo _ "/app/index.ts" 3
                  "$blue" None None None None Hops)).
Defined.
